(** * Monte Carlo simulator: dice, games and analyzers

    A shallow embedding of [die_game_analyzer.py] (classes [Die], [Game]
    and [Analyzer]) together with the properties its specification states.

    Modelling conventions.
    - Python objects live in a store ([World]); a reference is a location.
      Methods are state transformers that return either an exception or a
      value, together with the store they leave behind: an exception does
      not roll anything back, exactly as in Python.
    - A face is an integer or a string, the element types of the NumPy
      arrays the constructor accepts in practice.  Arrays are homogeneous
      ([IntArray] or [StrArray]); object arrays are outside the model.
    - A weight is a finite number, modelled as a rational: [float]
      rounding is abstracted away and the floats that are no numbers
      ([nan], [inf]) are not weights of the model.  What a division by a
      zero total yields is kept as an explicit not-a-number value.
      Rounding, the overflow of a large sum of weights and the memory of
      the machine can decide whether a roll of the code returns, and
      which face a sample on the border of two faces selects.  The
      statements about [roll] and [play] are therefore about what holds
      of every roll that returns, and about raises that do not depend on
      rounding; none says that a roll returns.
    - NumPy's and pandas' functions are modelled from their documented
      behaviour: [np.random.choice] by inverse transform sampling over the
      cumulative distribution, [value_counts] by first-seen counting
      followed by a sort on decreasing counts, and so on. *)

From Stdlib Require Import ZArith QArith Qabs Lia Lqa.
From stdpp Require Import base list gmap strings sorting pretty.

Local Open Scope string_scope.
Local Open Scope list_scope.

(** ** Faces and exceptions *)

Inductive Face : Type :=
| FInt (z : Z)
| FStr (s : string).

#[global] Instance Face_eq_dec : EqDecision Face.
Proof. solve_decision. Defined.

(** [str(face)], used by the f-string of [change_weight]. *)
Definition face_str (f : Face) : string :=
  match f with
  | FInt z => pretty z
  | FStr s => s
  end.

Inductive exn : Type :=
| TypeError (msg : string)
| ValueError (msg : string)
| IndexError (msg : string)
| AttributeError (msg : string)
| OverflowError (msg : string).

(** A NumPy array as the constructor receives it, or anything else. *)
Inductive ndarray : Type :=
| IntArray (a : list Z)
| StrArray (a : list string).

Definition to_list (a : ndarray) : list Face :=
  match a with
  | IntArray l => FInt <$> l
  | StrArray l => FStr <$> l
  end.

Inductive faces_arg : Type :=
| Array (a : ndarray)
| NotArray.

(** The argument [new_weight] of [change_weight], by what [float] does
    with it. *)
Inductive weight_arg : Type :=
| WNumber (q : Q)          (* int, float or numeric string of finite value q *)
| WBadString (s : string)  (* a string that float() rejects: ValueError *)
| WNotNumber               (* None, a list, ...: float() raises TypeError *)
| WTooLarge.               (* an int beyond the floats: OverflowError *)

(** An argument tested with [isinstance(_, int)].  A [bool] is an [int]
    in Python and passes the test; in comparisons [True] is 1 and [False]
    is 0. *)
Inductive int_arg : Type :=
| IsInt (z : Z)
| IsBool (b : bool)
| NotInt.

(** The [size] that reaches [np.random.choice] from [roll]: an int that
    is not a bool, or [True]. *)
Inductive size_arg : Type :=
| SizeInt (n : Z)
| SizeTrue.

#[global] Instance size_arg_eq_dec : EqDecision size_arg.
Proof. solve_decision. Defined.

(** ** The random source and [np.random.choice] *)

(** NumPy's global generator: an unbounded sequence of raw draws and the
    position reached.  [random_sample] turns a draw into a 53-bit fraction
    in [0, 1). *)
Record RandomState : Type := mkRandomState { draws : nat → Z; pos : nat }.

Definition two53 : Z := 2 ^ 53.

Definition random_sample (st : RandomState) : Q * RandomState :=
  (Qmake (draws st (pos st) `mod` two53) (Z.to_pos two53),
   mkRandomState (draws st) (S (pos st))).

Fixpoint random_samples (size : nat) (st : RandomState) : list Q * RandomState :=
  match size with
  | O => ([], st)
  | S k =>
      let '(u, st1) := random_sample st in
      let '(us, st2) := random_samples k st1 in
      (u :: us, st2)
  end.

(** A float array that may hold values that are not finite numbers:
    [None] stands for the [nan] or [inf] that a division by zero yields. *)
Definition npfloat : Type := option Q.

(** Python's [sum(weights)]: a left fold from 0. *)
Definition py_sum (ws : list Q) : Q := foldl Qplus 0%Q ws.

(** [np.array(weights) / total], element by element. *)
Definition np_divide (ws : list Q) (total : Q) : list npfloat :=
  (λ w, if Qeq_bool total 0 then None else Some (w / total)%Q) <$> ws.

(** The sum NumPy takes of the probabilities: not a number as soon as one
    entry is not finite. *)
Definition np_sum (p : list npfloat) : npfloat :=
  foldl (λ acc x, a ← acc; b ← x; Some (a + b)%Q) (Some 0%Q) p.

Fixpoint cumsum_from (acc : Q) (p : list Q) : list Q :=
  match p with
  | [] => []
  | x :: p' => (acc + x)%Q :: cumsum_from (acc + x)%Q p'
  end.

Definition cumsum (p : list Q) : list Q := cumsum_from 0%Q p.

(** [cdf.searchsorted(u, side='right')] on an ascending array: the number
    of leading entries that are at most [u]. *)
Fixpoint searchsorted_right (cdf : list Q) (u : Q) : nat :=
  match cdf with
  | [] => O
  | c :: cdf' => if Qle_bool c u then S (searchsorted_right cdf' u) else O
  end.

(** The tolerance of the sum test: the square root of the float epsilon. *)
Definition atol : Q := Qmake 1 (2 ^ 26).

(** [a[idx]] for an index array. *)
Fixpoint take_indices (a : list Face) (idx : list nat) : exn + list Face :=
  match idx with
  | [] => inr []
  | i :: idx' =>
      match a !! i with
      | None => inl (IndexError "index out of bounds")
      | Some x =>
          match take_indices a idx' with
          | inl e => inl e
          | inr xs => inr (x :: xs)
          end
      end
  end.

(** [np.random.choice(a, size=size, p=p)] with replacement.  The
    probabilities are checked first; the size is looked at only when the
    array of samples is made: [True] is no size, a size of [2 ^ 63] or
    more does not fit an index, and [2 ^ 60] samples of 8 bytes or more
    are beyond the size of an array (the wording of these messages varies
    with the version of NumPy).  Below that the samples are taken: the
    memory of the machine is not modelled. *)
Definition np_random_choice (a : list Face) (size : size_arg) (p : list npfloat)
    (st : RandomState) : (exn + list Face) * RandomState :=
  if decide (a = [] ∧ size ≠ SizeInt 0)
  then (inl (ValueError "'a' cannot be empty unless no samples are taken"), st)
  else if decide (length p ≠ length a)
  then (inl (ValueError "'a' and 'p' must have same size"), st)
  else
    match np_sum p with
    | None => (inl (ValueError "probabilities contain NaN"), st)
    | Some p_sum =>
        let pq := omap id p in
        if existsb (λ x, negb (Qle_bool 0 x)) pq
        then (inl (ValueError "probabilities are not non-negative"), st)
        else if negb (Qle_bool (Qabs (p_sum - 1)) atol)
        then (inl (ValueError "probabilities do not sum to 1"), st)
        else
          match size with
          | SizeTrue =>
              (inl (TypeError "expected a sequence of integers or a single integer, got 'True'"),
               st)
          | SizeInt n =>
              if decide (n < 0)%Z
              then (inl (ValueError "negative dimensions are not allowed"), st)
              else if decide (2 ^ 64 ≤ n)%Z
              then (inl (OverflowError "Python int too large to convert to C long"), st)
              else if decide (2 ^ 63 ≤ n)%Z
              then (inl (ValueError "Maximum allowed dimension exceeded"), st)
              else if decide (2 ^ 60 ≤ n)%Z
              then (inl (ValueError "array is too big"), st)
              else
                let cdf := cumsum pq in
                let cdf := (λ c, c / List.last cdf 0)%Q <$> cdf in
                let '(us, st') := random_samples (Z.to_nat n) st in
                let idx := searchsorted_right cdf <$> us in
                (take_indices a idx, st')
          end
    end.

(** An argument tested with [isinstance(_, list)]: a list of references. *)
Definition loc : Type := nat.

Inductive list_arg : Type :=
| IsList (l : list loc)
| NotList.

(** An argument tested with [isinstance(_, Game)]. *)
Inductive game_arg : Type :=
| IsGame (g : loc)
| NotGame.

(** ** Objects and the store *)

(** [Die.__df]: one row per face, in the order of the array; the index is
    the face and the only column is the weight. *)
Record Die : Type := mkDie { Die__df : list (Face * Q) }.

(** Row and column labels of a table. *)
Inductive label : Type :=
| LInt (i : nat)
| LStr (s : string).

(** A pandas table of outcomes: the labels of the rows (one tuple of
    labels per row), the names of the index levels, the labels of the
    columns, and the cells row by row. *)
Record DataFrame : Type := mkDataFrame {
  df_index : list (list label);
  df_index_names : list (option string);
  df_columns : list label;
  df_values : list (list Face)
}.

(** [Game.__dice] holds references; a location of the list that holds no
    [Die] stands for an object of another class.  [Game.__results] is
    [None] or a reference to a table. *)
Record Game : Type := mkGame { Game__dice : list loc; Game__results : option loc }.

Record Analyzer : Type := mkAnalyzer { game : loc; results : loc }.

Record World : Type := mkWorld {
  dice : gmap loc Die;
  games : gmap loc Game;
  frames : gmap loc DataFrame;
  analyzers : gmap loc Analyzer;
  np_random : RandomState
}.

(** Methods: the store goes in, an exception or a value comes out with
    the store as the call left it. *)
Definition M (A : Type) : Type := World → (exn + A) * World.

#[global] Instance M_ret : MRet M := λ A x w, (inr x, w).
#[global] Instance M_bind : MBind M := λ A B k m w,
  match m w with
  | (inl e, w') => (inl e, w')
  | (inr x, w') => k x w'
  end.

Definition raise {A} (e : exn) : M A := λ w, (inl e, w).

Definition with_dice (f : gmap loc Die → gmap loc Die) (w : World) : World :=
  mkWorld (f (dice w)) (games w) (frames w) (analyzers w) (np_random w).
Definition with_games (f : gmap loc Game → gmap loc Game) (w : World) : World :=
  mkWorld (dice w) (f (games w)) (frames w) (analyzers w) (np_random w).
Definition with_frames (f : gmap loc DataFrame → gmap loc DataFrame) (w : World) : World :=
  mkWorld (dice w) (games w) (f (frames w)) (analyzers w) (np_random w).
Definition with_analyzers (f : gmap loc Analyzer → gmap loc Analyzer) (w : World) : World :=
  mkWorld (dice w) (games w) (frames w) (f (analyzers w)) (np_random w).
Definition with_np_random (st : RandomState) (w : World) : World :=
  mkWorld (dice w) (games w) (frames w) (analyzers w) st.

Definition no_attribute {A} (name : string) : M A :=
  raise (AttributeError ("object has no attribute '" +:+ name +:+ "'")).

(** Reading an object through a reference. *)
Definition get_die (r : loc) (name : string) : M Die := λ w,
  match dice w !! r with
  | Some d => (inr d, w)
  | None => no_attribute name w
  end.
Definition get_game (r : loc) (name : string) : M Game := λ w,
  match games w !! r with
  | Some g => (inr g, w)
  | None => no_attribute name w
  end.
Definition get_frame (r : loc) (name : string) : M DataFrame := λ w,
  match frames w !! r with
  | Some t => (inr t, w)
  | None => no_attribute name w
  end.
Definition get_analyzer (r : loc) (name : string) : M Analyzer := λ w,
  match analyzers w !! r with
  | Some a => (inr a, w)
  | None => no_attribute name w
  end.

(** Writing an attribute of an object. *)
Definition put_die (r : loc) (d : Die) : M unit := λ w,
  (inr tt, with_dice (insert r d) w).
Definition put_game (r : loc) (g : Game) : M unit := λ w,
  (inr tt, with_games (insert r g) w).

(** Creating an object: a location that nothing of the class occupies. *)
Definition new_die (d : Die) : M loc := λ w,
  let r := fresh (dom (dice w)) in (inr r, with_dice (insert r d) w).
Definition new_game (g : Game) : M loc := λ w,
  let r := fresh (dom (games w)) in (inr r, with_games (insert r g) w).
Definition new_frame (t : DataFrame) : M loc := λ w,
  let r := fresh (dom (frames w)) in (inr r, with_frames (insert r t) w).
Definition new_analyzer (a : Analyzer) : M loc := λ w,
  let r := fresh (dom (analyzers w)) in (inr r, with_analyzers (insert r a) w).

(** ** Die *)

(** [df.at[face, 'weight'] = w]: every row labelled [face] gets [w]. *)
Definition set_at (face : Face) (w : Q) (rows : list (Face * Q)) : list (Face * Q) :=
  (λ r, if decide (r.1 = face) then (r.1, w) else r) <$> rows.

Definition py_float (a : weight_arg) : exn + Q :=
  match a with
  | WNumber q => inr q
  | WBadString _ => inl (ValueError "could not convert string to float")
  | WNotNumber => inl (TypeError "float() argument must be a string or a real number")
  | WTooLarge => inl (OverflowError "int too large to convert to float")
  end.

Module Die.

Definition index (d : Die) : list Face := fst <$> Die__df d.
Definition weight (d : Die) : list Q := snd <$> Die__df d.

Definition init (faces : faces_arg) : M loc :=
  match faces with
  | NotArray => raise (TypeError "Faces must be provided as a NumPy array.")
  | Array a =>
      let l := to_list a in
      if decide (length l ≠ length (remove_dups l))
      then raise (ValueError "Faces must contain unique values.")
      else new_die (mkDie ((λ f, (f, 1%Q)) <$> l))
  end.

Definition change_weight (self : loc) (face : Face) (new_weight : weight_arg)
  : M unit :=
  d ← get_die self "change_weight";
  if decide (face ∉ index d)
  then raise (IndexError ("Face '" +:+ face_str face +:+ "' not found in die faces."))
  else
    match py_float new_weight with
    | inl (ValueError _) =>
        raise (TypeError "New weight must be numeric or castable to float.")
    | inl e => raise e
    | inr x =>
        if Qlt_le_dec x 0
        then raise (ValueError "Weight must be non-negative.")
        else put_die self (mkDie (set_at face x (Die__df d)))
    end.

(** The last two statements of [roll], for a count that passed the
    test. *)
Definition draw (d : Die) (size : size_arg) : M (list Face) :=
  let faces := index d in
  let weights := weight d in
  λ w,
    let '(r, st) :=
      np_random_choice faces size
        (np_divide weights (py_sum weights)) (np_random w) in
    (r, with_np_random st w).

Definition roll (self : loc) (num_rolls : int_arg) : M (list Face) :=
  d ← get_die self "roll";
  match num_rolls with
  | NotInt => raise (ValueError "Number of rolls must be a positive integer.")
  | IsInt n =>
      if decide (n ≤ 0)%Z
      then raise (ValueError "Number of rolls must be a positive integer.")
      else draw d (SizeInt n)
  | IsBool b =>
      if b
      then draw d SizeTrue
      else raise (ValueError "Number of rolls must be a positive integer.")
  end.

(** A copy of the table. *)
Definition show (self : loc) : M (list (Face * Q)) :=
  d ← get_die self "show";
  mret (Die__df d).

End Die.

(** ** Game *)

(** [pd.DataFrame(rolls)] for a dict of columns of one length, keyed
    0, 1, ... in insertion order: the cells row by row.  No column gives
    no row. *)
Fixpoint rows_of_columns (cols : list (list Face)) : list (list Face) :=
  match cols with
  | [] => []
  | [c] => (λ x, [x]) <$> c
  | c :: cs => zip_with cons c (rows_of_columns cs)
  end.

Definition range_labels (n : nat) : list label := LInt <$> seq 0 n.

Definition DataFrame_of_dict (cols : list (list Face)) : DataFrame :=
  let rows := rows_of_columns cols in
  mkDataFrame ((λ l, [l]) <$> range_labels (length rows)) [None]
    (range_labels (length cols)) rows.

(** [df.stack()] followed by [to_frame(name)]: one row per cell, row by
    row and within a row column by column; the row label gains the column
    label as its last level. *)
Definition stack_row (cols : list label) (ix : list label) (row : list Face)
  : list (list label * Face) :=
  zip_with (λ c v, (ix ++ [c], v)) cols row.

Definition stack (t : DataFrame) : list (list label * Face) :=
  concat (zip_with (stack_row (df_columns t)) (df_index t) (df_values t)).

Module Game.

Definition init (dice_list : list_arg) : M loc :=
  match dice_list with
  | NotList => raise (ValueError "Must provide a non-empty list of dice.")
  | IsList l =>
      if decide (length l = 0%nat)
      then raise (ValueError "Must provide a non-empty list of dice.")
      else new_game (mkGame l None)
  end.

(** The loop of [play]: the dice are rolled in the order of the list
    and the first exception ends the loop. *)
Fixpoint roll_each (ds : list loc) (num_rolls : int_arg) : M (list (list Face)) :=
  match ds with
  | [] => mret []
  | die :: ds' =>
      c ← Die.roll die num_rolls;
      cs ← roll_each ds' num_rolls;
      mret (c :: cs)
  end.

(** The statements of [play] after the test of the count. *)
Definition roll_and_store (self : loc) (g : Game) (num_rolls : int_arg) : M unit :=
  rolls ← roll_each (Game__dice g) num_rolls;
  let t := DataFrame_of_dict rolls in
  r ← new_frame (mkDataFrame (df_index t) [Some "Roll Number"] (df_columns t) (df_values t));
  put_game self (mkGame (Game__dice g) (Some r)).

Definition play (self : loc) (num_rolls : int_arg) : M unit :=
  g ← get_game self "play";
  match num_rolls with
  | NotInt => raise (ValueError "Number of rolls must be a positive integer.")
  | IsInt n =>
      if decide (n ≤ 0)%Z
      then raise (ValueError "Number of rolls must be a positive integer.")
      else roll_and_store self g num_rolls
  | IsBool b =>
      if b
      then roll_and_store self g num_rolls
      else raise (ValueError "Number of rolls must be a positive integer.")
  end.

Definition show (self : loc) (form : string) : M loc :=
  g ← get_game self "show";
  match Game__results g with
  | None => raise (ValueError "No game has been played yet.")
  | Some r =>
      if decide (form = "wide")
      then t ← get_frame r "copy"; new_frame t
      else if decide (form = "narrow")
      then
        t ← get_frame r "stack";
        let narrow := stack t in
        new_frame (mkDataFrame (fst <$> narrow) [Some "Roll Number"; Some "Die Number"]
                     [LStr "Outcome"] ((λ e, [e.2]) <$> narrow))
      else raise (ValueError "Invalid form. Use 'wide' or 'narrow'.")
  end.

End Game.

(** ** pandas helpers of the analyzer *)

Section Pandas.
Context {A : Type} `{EqDecision A}.

(** [pd.unique]: the distinct values in order of first appearance. *)
Definition unique (l : list A) : list A :=
  foldl (λ acc x, if decide (x ∈ acc) then acc else acc ++ [x]) [] l.

(** The number of times a value occurs. *)
Definition occurrences (x : A) (l : list A) : nat :=
  length (filter (λ y, y = x) l).

(** A Series of counts is the list of its labels with their values, in
    row order.  [by_count_desc a b]: row [a] may stand before row [b] when
    sorting on decreasing counts. *)
Definition by_count_desc (a b : A * nat) : Prop := (b.2 ≤ a.2)%nat.

#[global] Instance by_count_desc_dec a b : Decision (by_count_desc a b).
Proof. unfold by_count_desc. apply _. Defined.

(** [Series.value_counts()]: each distinct value with the number of its
    occurrences, sorted on decreasing count.  The order among equal
    counts is whatever the sort leaves; nothing below depends on it. *)
Definition value_counts (l : list A) : list (A * nat) :=
  merge_sort by_count_desc ((λ k, (k, occurrences k l)) <$> unique l).

(** The value of a Series under a label. *)
Fixpoint series_get (s : list (A * nat)) (k : A) : option nat :=
  match s with
  | [] => None
  | (k', v) :: s' => if decide (k' = k) then Some v else series_get s' k
  end.

(** [Series.reindex(labels, fill_value=fill)] *)
Definition reindex (labels : list A) (fill : nat) (s : list (A * nat))
  : list (A * nat) :=
  (λ k, (k, default fill (series_get s k))) <$> labels.
End Pandas.

(** Python's [<] between two outcomes is defined inside one type only. *)
Definition is_int (f : Face) : bool := if f is FInt _ then true else false.
Definition is_str (f : Face) : bool := if f is FStr _ then true else false.

(** The order of [sorted] on values of one type: integers by value,
    strings lexicographically.  It is extended (integers first) so that
    it is total; [py_sorted] applies it when all values are of one type. *)
Definition face_le (a b : Face) : Prop :=
  match a, b with
  | FInt x, FInt y => (x ≤ y)%Z
  | FStr s, FStr t => String.le s t
  | FInt _, FStr _ => True
  | FStr _, FInt _ => False
  end.

#[global] Instance face_le_dec a b : Decision (face_le a b).
Proof. destruct a, b; simpl; apply _. Defined.

(** [sorted(row)]: comparing a string with an integer raises. *)
Definition py_sorted (row : list Face) : exn + list Face :=
  if existsb is_int row && existsb is_str row
  then inl (TypeError "'<' not supported between instances of 'str' and 'int'")
  else inr (merge_sort face_le row).

(** [df.apply(f, axis=1)] for an [f] that may raise: row by row, the
    first exception ends the traversal. *)
Fixpoint apply_rows {B} (f : list Face → exn + B) (rows : list (list Face))
  : exn + list B :=
  match rows with
  | [] => inr []
  | r :: rows' =>
      match f r with
      | inl e => inl e
      | inr k =>
          match apply_rows f rows' with
          | inl e => inl e
          | inr ks => inr (k :: ks)
          end
      end
  end.

(** The table of [face_counts_per_roll]: rows labelled as the results,
    one column per face, counts in the cells. *)
Record CountsFrame : Type := mkCountsFrame {
  cf_index : list (list label);
  cf_index_names : list (option string);
  cf_columns : list Face;
  cf_values : list (list nat)
}.

(** [pd.DataFrame(counts_list)] for Series that share one index: the
    index gives the columns, each Series a row. *)
Definition DataFrame_of_series (counts_list : list (list (Face * nat)))
  : list Face * list (list nat) :=
  (match counts_list with
   | [] => []
   | s :: _ => fst <$> s
   end,
   (λ s : list (Face * nat), snd <$> s) <$> counts_list).

(** ** Analyzer *)

Module Analyzer.

Definition init (game : game_arg) : M loc :=
  match game with
  | NotGame => raise (ValueError "Input must be a Game object.")
  | IsGame g =>
      r ← Game.show g "wide";
      new_analyzer (mkAnalyzer g r)
  end.

(** The bodies of the four statistics, on the table [self.results]. *)
Definition jackpots (t : DataFrame) : nat :=
  length (filter (λ row, length (unique row) = 1%nat) (df_values t)).

Definition face_counts (t : DataFrame) : CountsFrame :=
  let unique_faces := unique (concat (df_values t)) in
  let counts_list :=
    (λ row, reindex unique_faces 0%nat (value_counts row)) <$> df_values t in
  let '(cols, vals) := DataFrame_of_series counts_list in
  mkCountsFrame (df_index t) [Some "Roll Number"] cols vals.

Definition combo_counts (t : DataFrame) : exn + list (list Face * nat) :=
  match apply_rows py_sorted (df_values t) with
  | inl e => inl e
  | inr combos => inr (value_counts combos)
  end.

Definition permutation_counts (t : DataFrame) : list (list Face * nat) :=
  value_counts (df_values t).

Definition get_results (self : loc) (name : string) : M DataFrame :=
  a ← get_analyzer self name;
  get_frame (results a) name.

Definition jackpot (self : loc) : M nat :=
  t ← get_results self "jackpot";
  mret (jackpots t).

Definition face_counts_per_roll (self : loc) : M CountsFrame :=
  t ← get_results self "face_counts_per_roll";
  mret (face_counts t).

Definition combo_count (self : loc) : M (list (list Face * nat)) :=
  t ← get_results self "combo_count";
  match combo_counts t with
  | inl e => raise e
  | inr c => mret c
  end.

Definition permutation_count (self : loc) : M (list (list Face * nat)) :=
  t ← get_results self "permutation_count";
  mret (permutation_counts t).

End Analyzer.

(** ** The calls of the library, as data *)

(** One constructor per public operation, so that a statement can range
    over all of them. *)
Inductive call : Type :=
| DieInit (faces : faces_arg)
| DieChangeWeight (self : loc) (face : Face) (new_weight : weight_arg)
| DieRoll (self : loc) (num_rolls : int_arg)
| DieShow (self : loc)
| GameInit (dice_list : list_arg)
| GamePlay (self : loc) (num_rolls : int_arg)
| GameShow (self : loc) (form : string)
| AnalyzerInit (game : game_arg)
| AnalyzerJackpot (self : loc)
| AnalyzerFaceCountsPerRoll (self : loc)
| AnalyzerComboCount (self : loc)
| AnalyzerPermutationCount (self : loc).

(** The exception a method call ends with, if any, and the store after. *)
Definition outcome {A} (m : M A) (w : World) : option exn * World :=
  match m w with
  | (inl e, w') => (Some e, w')
  | (inr _, w') => (None, w')
  end.

Definition run (c : call) : World → option exn * World :=
  match c with
  | DieInit faces => outcome (Die.init faces)
  | DieChangeWeight self face x => outcome (Die.change_weight self face x)
  | DieRoll self n => outcome (Die.roll self n)
  | DieShow self => outcome (Die.show self)
  | GameInit l => outcome (Game.init l)
  | GamePlay self n => outcome (Game.play self n)
  | GameShow self form => outcome (Game.show self form)
  | AnalyzerInit g => outcome (Analyzer.init g)
  | AnalyzerJackpot self => outcome (Analyzer.jackpot self)
  | AnalyzerFaceCountsPerRoll self => outcome (Analyzer.face_counts_per_roll self)
  | AnalyzerComboCount self => outcome (Analyzer.combo_count self)
  | AnalyzerPermutationCount self => outcome (Analyzer.permutation_count self)
  end.

(** A sequence of calls, each run in the store the previous one left,
    whether it returned or raised. *)
Definition run_all (cs : list call) (w : World) : World :=
  foldl (λ w c, (run c w).2) w cs.

(** The objects of a store, the generator left aside. *)
Definition objects (w : World)
  : gmap loc Die * gmap loc Game * gmap loc DataFrame * gmap loc Analyzer :=
  (dice w, games w, frames w, analyzers w).

(** ** Invariants *)

(** What the constructor and [change_weight] maintain of a die: its faces
    are pairwise distinct and no weight is negative. *)
Definition Die_ok (d : Die) : Prop :=
  NoDup (Die.index d) ∧ Forall (λ q, (0 <= q)%Q) (Die.weight d).

(** What the constructors maintain of a store. *)
Record World_ok (w : World) : Prop := mkWorld_ok {
  ok_dice : ∀ r d, dice w !! r = Some d → Die_ok d;
  ok_games : ∀ r g, games w !! r = Some g → Game__dice g ≠ [];
  ok_results : ∀ r g t, games w !! r = Some g → Game__results g = Some t →
               is_Some (frames w !! t);
  ok_analyzers : ∀ r a, analyzers w !! r = Some a → is_Some (frames w !! results a)
}.

(** All outcomes of a row have one value. *)
Definition all_same (row : list Face) : bool :=
  match row with
  | [] => false
  | x :: r => forallb (λ y, bool_decide (y = x)) r
  end.

(** All outcomes of a row have one type, so [sorted] can compare them. *)
Definition one_type (row : list Face) : Prop :=
  Forall (λ f, is_int f = true) row ∨ Forall (λ f, is_str f = true) row.

(** The exact sum of a list of weights. *)
Definition Qsum (l : list Q) : Q := foldr Qplus 0%Q l.

(** The empty store, with a given generator. *)
Definition empty_world (st : RandomState) : World := mkWorld ∅ ∅ ∅ ∅ st.

(** A generator for the examples. *)
Definition example_random : RandomState :=
  mkRandomState (λ i, (Z.of_nat i * 3266489917 + 668265263) * 374761393)%Z 0.

(** ** Sessions used as examples *)

(** Two fair six-sided dice in a game, as in the test suite. *)
Definition fair_setup : M (loc * loc * loc) :=
  d1 ← Die.init (Array (IntArray [1; 2; 3; 4; 5; 6]%Z));
  d2 ← Die.init (Array (IntArray [1; 2; 3; 4; 5; 6]%Z));
  g ← Game.init (IsList [d1; d2]);
  mret (d1, d2, g).

(** The store after the set-up, after a play of five rolls, and after an
    analyzer has been made of the game.  The dice are at locations 0 and
    1, the game and the analyzer at location 0 of their class. *)
Definition setup_world : World := (fair_setup (empty_world example_random)).2.
Definition played_world : World := (Game.play 0%nat (IsInt 5) setup_world).2.
Definition fair_world : World := (Analyzer.init (IsGame 0%nat) played_world).2.

(** The table the analyzer of [fair_world] holds. *)
Definition fair_snapshot : DataFrame :=
  mkDataFrame [[LInt 0]; [LInt 1]; [LInt 2]; [LInt 3]; [LInt 4]]
    [Some "Roll Number"] [LInt 0; LInt 1]
    [[FInt 5; FInt 3]; [FInt 5; FInt 2]; [FInt 4; FInt 1]; [FInt 4; FInt 1];
     [FInt 3; FInt 6]].

(** A die of integers and a die of strings in one game. *)
Definition mixed_session : M loc :=
  d1 ← Die.init (Array (IntArray [1; 2]%Z));
  d2 ← Die.init (Array (StrArray ["a"; "b"]));
  g ← Game.init (IsList [d1; d2]);
  _ ← Game.play g (IsInt 3);
  Analyzer.init (IsGame g).

Definition mixed_world : World := (mixed_session (empty_world example_random)).2.

(** A coin whose two weights are set after construction. *)
Definition coin_session (heads tails : Q) : M loc :=
  d ← Die.init (Array (StrArray ["H"; "T"]));
  _ ← Die.change_weight d (FStr "H") (WNumber heads);
  _ ← Die.change_weight d (FStr "T") (WNumber tails);
  mret d.

Definition tails_world : World := (coin_session 0 1 (empty_world example_random)).2.
Definition dead_world : World := (coin_session 0 0 (empty_world example_random)).2.

(** A game played once, one of whose dice then loses all its weight. *)
Definition stale_session : M loc :=
  d1 ← Die.init (Array (IntArray [1; 2; 3; 4; 5; 6]%Z));
  d2 ← Die.init (Array (StrArray ["H"; "T"]));
  g ← Game.init (IsList [d1; d2]);
  _ ← Game.play g (IsInt 2);
  _ ← Die.change_weight d2 (FStr "H") (WNumber 0);
  _ ← Die.change_weight d2 (FStr "T") (WNumber 0);
  mret g.

Definition stale_world : World := (stale_session (empty_world example_random)).2.

(* ================================================================== *)
(** * Properties *)

(** ** The monad *)

Ltac unfold_M :=
  unfold outcome, get_die, get_game, get_frame, get_analyzer,
    put_die, put_game, new_die, new_game, new_frame, new_analyzer,
    no_attribute, raise, mbind, M_bind, mret, M_ret in *.

Lemma bind_inr {A B} (m : M A) (k : A → M B) w x w' :
  m w = (inr x, w') → (m ≫= k) w = k x w'.
Proof. unfold mbind, M_bind. intros ->. reflexivity. Qed.

Lemma bind_inl {A B} (m : M A) (k : A → M B) w e w' :
  m w = (inl e, w') → (m ≫= k) w = (inl e, w').
Proof. unfold mbind, M_bind. intros ->. reflexivity. Qed.

Lemma bind_inv_inr {A B} (m : M A) (k : A → M B) w y w2 :
  (m ≫= k) w = (inr y, w2) →
  ∃ x w1, m w = (inr x, w1) ∧ k x w1 = (inr y, w2).
Proof.
  unfold mbind, M_bind. destruct (m w) as [[e|x] w1]; intros H.
  - discriminate.
  - eauto.
Qed.

Lemma bind_inv_inl {A B} (m : M A) (k : A → M B) w e w2 :
  (m ≫= k) w = (inl e, w2) →
  m w = (inl e, w2) ∨ ∃ x w1, m w = (inr x, w1) ∧ k x w1 = (inl e, w2).
Proof.
  unfold mbind, M_bind. destruct (m w) as [[e'|x] w1]; intros H.
  - left. injection H as -> ->. reflexivity.
  - right. eauto.
Qed.

(** ** Die: the table and [change_weight] *)

Lemma set_at_index face x rows : (set_at face x rows).*1 = rows.*1.
Proof.
  unfold set_at. rewrite <- list_fmap_compose. apply list_fmap_ext.
  intros i [f q] _. simpl. destruct (decide (f = face)); reflexivity.
Qed.

Lemma set_at_lookup face x rows i f q :
  rows !! i = Some (f, q) →
  set_at face x rows !! i = Some (f, if decide (f = face) then x else q).
Proof.
  intros H. unfold set_at. rewrite list_lookup_fmap, H. simpl.
  destruct (decide (f = face)); reflexivity.
Qed.

Lemma set_at_twice face x rows :
  set_at face x (set_at face x rows) = set_at face x rows.
Proof.
  unfold set_at. rewrite <- list_fmap_compose. apply list_fmap_ext.
  intros i [f q] _. simpl. destruct (decide (f = face)) as [->|Hne]; simpl.
  - rewrite decide_True by reflexivity. reflexivity.
  - rewrite decide_False by assumption. reflexivity.
Qed.

Lemma set_at_weights_nonneg face x rows :
  (0 <= x)%Q → Forall (λ q, (0 <= q)%Q) rows.*2 →
  Forall (λ q, (0 <= q)%Q) (set_at face x rows).*2.
Proof.
  intros Hx. rewrite !Forall_fmap. unfold set_at. rewrite Forall_fmap.
  intros H. eapply Forall_impl; [exact H|]. intros [f q]. simpl.
  destruct (decide (f = face)); simpl; auto.
Qed.

Lemma change_weight_success w self d face x :
  dice w !! self = Some d → face ∈ Die.index d → (0 <= x)%Q →
  Die.change_weight self face (WNumber x) w =
    (inr tt, with_dice (insert self (mkDie (set_at face x (Die__df d)))) w).
Proof.
  intros Hd Hin Hx. unfold Die.change_weight. unfold_M. rewrite Hd.
  rewrite decide_False by (intros Hn; apply Hn, Hin). simpl.
  destruct (Qlt_le_dec x 0) as [Hlt|_].
  - exfalso. apply (Qlt_not_le _ _ Hlt Hx).
  - reflexivity.
Qed.

(** C8. A successful [change_weight] replaces the weight of the named face
    and nothing else: [show] afterwards lists the same faces in the same
    order, each with its previous weight except the named one, which has
    the new weight; every other die, every game, table and analyzer and
    the generator are as before; and a second identical call succeeds and
    leaves the store as the first call left it. *)
Theorem change_weight_frame (w : World) (self : loc) (d : Die) (face : Face) (x : Q) :
  dice w !! self = Some d → face ∈ Die.index d → (0 <= x)%Q →
  ∃ w' tbl,
    Die.change_weight self face (WNumber x) w = (inr tt, w') ∧
    Die.show self w' = (inr tbl, w') ∧
    tbl.*1 = Die.index d ∧
    (∀ i f q, Die__df d !! i = Some (f, q) →
              tbl !! i = Some (f, if decide (f = face) then x else q)) ∧
    (∀ r, r ≠ self → dice w' !! r = dice w !! r) ∧
    games w' = games w ∧ frames w' = frames w ∧ analyzers w' = analyzers w ∧
    np_random w' = np_random w ∧
    Die.change_weight self face (WNumber x) w' = (inr tt, w').
Proof.
  intros Hd Hin Hx.
  set (d' := mkDie (set_at face x (Die__df d))).
  exists (with_dice (insert self d') w), (Die__df d').
  assert (Hd' : dice (with_dice (insert self d') w) !! self = Some d')
    by (simpl; apply lookup_insert_eq).
  split; [apply change_weight_success; assumption|].
  split.
  { unfold Die.show. unfold_M. rewrite Hd'. reflexivity. }
  split; [apply set_at_index|].
  split; [intros i f q Hi; apply set_at_lookup, Hi|].
  split; [intros r Hr; simpl; apply lookup_insert_ne; congruence|].
  do 4 (split; [reflexivity|]).
  rewrite (change_weight_success _ self d' face x Hd').
  - unfold with_dice, d'. simpl. rewrite set_at_twice, insert_insert_eq. reflexivity.
  - unfold Die.index, d'. simpl. rewrite set_at_index. exact Hin.
  - exact Hx.
Qed.

(** ** Failure leaves the objects alone *)

Lemma roll_objects self n w r w' :
  Die.roll self n w = (r, w') → objects w' = objects w.
Proof.
  unfold Die.roll, Die.draw. unfold_M. intros H.
  repeat case_match; simplify_eq; reflexivity.
Qed.

Lemma roll_each_objects ds n w r w' :
  Game.roll_each ds n w = (r, w') → objects w' = objects w.
Proof.
  revert w r w'. induction ds as [|die ds IH]; intros w r w'; simpl.
  - unfold_M. intros H. simplify_eq. reflexivity.
  - unfold mbind, M_bind. destruct (Die.roll die n w) as [[e|c] w1] eqn:Hroll.
    + intros H. simplify_eq. eapply roll_objects, Hroll.
    + destruct (Game.roll_each ds n w1) as [[e|cs] w2] eqn:Heach.
      * intros H. simplify_eq. rewrite (IH _ _ _ Heach). eapply roll_objects, Hroll.
      * unfold mret, M_ret. intros H. simplify_eq.
        rewrite (IH _ _ _ Heach). eapply roll_objects, Hroll.
Qed.

Lemma show_error self form w e w' :
  Game.show self form w = (inl e, w') → w' = w.
Proof.
  unfold Game.show. unfold_M. intros H.
  repeat case_match; simplify_eq; reflexivity.
Qed.

Lemma play_error self n w e w' :
  Game.play self n w = (inl e, w') → objects w' = objects w.
Proof.
  unfold Game.play. unfold get_game.
  unfold mbind at 1. unfold M_bind at 1.
  destruct (games w !! self) as [g|]; [|unfold_M; intros; simplify_eq; reflexivity].
  assert (Hbody : Game.roll_and_store self g n w = (inl e, w') → objects w' = objects w).
  { unfold Game.roll_and_store.
    intros [Hp|(rolls & w1 & Hroll & Hp)]%bind_inv_inl.
    - eapply roll_each_objects, Hp.
    - exfalso. revert Hp. unfold_M. intros Hp. simplify_eq. }
  destruct n as [z|[]|]; [|exact Hbody|unfold_M; intros; simplify_eq; reflexivity..].
  destruct (decide (z ≤ 0)%Z); [unfold_M; intros; simplify_eq; reflexivity|exact Hbody].
Qed.

(** C7. Whatever the operation (constructing a die, [change_weight],
    [roll], [show], constructing a game, [play], [show], constructing an
    analyzer, or one of its statistics) and whatever its arguments, when
    the call ends with an exception every die, game, results table and
    analyzer of the store is exactly as it was before the call. *)
Theorem failure_leaves_objects (c : call) (w w' : World) (e : exn) :
  run c w = (Some e, w') → objects w' = objects w.
Proof.
  destruct c as [faces|self face x|self num_rolls|self|l|self num_rolls|self form
                |ga|self|self|self|self]; simpl; unfold outcome.
  - unfold Die.init. unfold_M. intros H. repeat case_match; simplify_eq; reflexivity.
  - unfold Die.change_weight. unfold_M. intros H.
    repeat case_match; simplify_eq; reflexivity.
  - destruct (Die.roll self num_rolls w) as [[e'|x] w1] eqn:Hr; intros H; simplify_eq.
    eapply roll_objects, Hr.
  - unfold Die.show. unfold_M. intros H. repeat case_match; simplify_eq; reflexivity.
  - unfold Game.init. unfold_M. intros H. repeat case_match; simplify_eq; reflexivity.
  - destruct (Game.play self num_rolls w) as [[e'|x] w1] eqn:Hp; intros H; simplify_eq.
    eapply play_error, Hp.
  - destruct (Game.show self form w) as [[e'|x] w1] eqn:Hs; intros H; simplify_eq.
    apply show_error in Hs. subst. reflexivity.
  - destruct (Analyzer.init ga w) as [[e'|x] w1] eqn:Hs; intros H; simplify_eq.
    revert Hs. unfold Analyzer.init. destruct ga as [g|].
    + intros [Hs|(r & w2 & _ & Hs)]%bind_inv_inl.
      * apply show_error in Hs. subst. reflexivity.
      * exfalso. revert Hs. unfold_M. intros Hs. simplify_eq.
    + unfold_M. intros; simplify_eq. reflexivity.
  - unfold Analyzer.jackpot, Analyzer.get_results. unfold_M. intros H.
    repeat case_match; simplify_eq; reflexivity.
  - unfold Analyzer.face_counts_per_roll, Analyzer.get_results. unfold_M. intros H.
    repeat case_match; simplify_eq; reflexivity.
  - unfold Analyzer.combo_count, Analyzer.get_results. unfold_M. intros H.
    repeat case_match; simplify_eq; reflexivity.
  - unfold Analyzer.permutation_count, Analyzer.get_results. unfold_M. intros H.
    repeat case_match; simplify_eq; reflexivity.
Qed.

(** ** pandas helpers *)

Section pandas_facts.
Context {A : Type} `{EqDecision A}.
Implicit Types l acc : list A.

Lemma unique_from_elem_of acc l x :
  x ∈ foldl (λ acc x, if decide (x ∈ acc) then acc else acc ++ [x]) acc l
  ↔ x ∈ acc ∨ x ∈ l.
Proof.
  revert acc. induction l as [|y l IH]; intros acc; simpl.
  - rewrite elem_of_nil. tauto.
  - rewrite IH, elem_of_cons. destruct (decide (y ∈ acc)) as [Hy|Hy].
    + split; [tauto|]. intros [?|[->|?]]; auto.
    + rewrite elem_of_app, list_elem_of_singleton. tauto.
Qed.

Lemma unique_from_NoDup acc l :
  NoDup acc →
  NoDup (foldl (λ acc x, if decide (x ∈ acc) then acc else acc ++ [x]) acc l).
Proof.
  revert acc. induction l as [|y l IH]; intros acc Hacc; simpl; [assumption|].
  apply IH. destruct (decide (y ∈ acc)) as [Hy|Hy]; [assumption|].
  apply NoDup_app. split; [assumption|]. split.
  - intros x Hx ->%list_elem_of_singleton. contradiction.
  - apply NoDup_singleton.
Qed.

Lemma elem_of_unique l x : x ∈ unique l ↔ x ∈ l.
Proof. unfold unique. rewrite unique_from_elem_of, elem_of_nil. tauto. Qed.

Lemma NoDup_unique l : NoDup (unique l).
Proof. apply unique_from_NoDup, NoDup_nil_2. Qed.

Lemma unique_from_same x l :
  Forall (λ y, y = x) l →
  foldl (λ acc x, if decide (x ∈ acc) then acc else acc ++ [x]) [x] l = [x].
Proof.
  induction 1 as [|y l -> _ IH]; simpl; [reflexivity|].
  rewrite decide_True by (apply list_elem_of_singleton; reflexivity). exact IH.
Qed.

Lemma occurrences_cons x y l :
  occurrences x (y :: l) = ((if decide (y = x) then 1 else 0) + occurrences x l)%nat.
Proof.
  unfold occurrences. rewrite filter_cons.
  destruct (decide (y = x)); reflexivity.
Qed.

Lemma occurrences_zero x l : occurrences x l = 0%nat ↔ x ∉ l.
Proof.
  induction l as [|y l IH]; [split; [intros _; apply not_elem_of_nil|reflexivity]|].
  rewrite occurrences_cons, not_elem_of_cons.
  destruct (decide (y = x)) as [->|Hne]; simpl.
  - split; [discriminate|]. intros [? _]. congruence.
  - rewrite IH. split; [intros ?; split; congruence|tauto].
Qed.

Lemma occurrences_fmap {B} `{EqDecision B} (f : B → A) (k : A) (rows : list B) :
  occurrences k (f <$> rows) = length (filter (λ r, f r = k) rows).
Proof.
  induction rows as [|r rows IH]; [reflexivity|].
  rewrite fmap_cons, occurrences_cons, filter_cons, IH.
  destruct (decide (f r = k)); reflexivity.
Qed.

Lemma sum_indicator (y : A) (ks : list A) :
  NoDup ks → y ∈ ks →
  sum_list ((λ k, if decide (y = k) then 1 else 0)%nat <$> ks) = 1%nat.
Proof.
  induction 1 as [|k ks Hk Hnd IH]; [intros []%elem_of_nil|].
  intros Hy. rewrite fmap_cons. simpl. destruct (decide (y = k)) as [->|Hne].
  - assert (Hz : sum_list ((λ k0, if decide (k = k0) then 1 else 0)%nat <$> ks) = 0%nat).
    { clear IH Hnd Hy. induction ks as [|k' ks IH']; [reflexivity|].
      rewrite fmap_cons. simpl. apply not_elem_of_cons in Hk as [Hkk Hk].
      rewrite decide_False by assumption. simpl. auto. }
    rewrite Hz. reflexivity.
  - apply elem_of_cons in Hy as [?|Hy]; [contradiction|]. simpl. auto.
Qed.

(** Counting every key of a duplicate-free cover counts every element. *)
Lemma sum_occurrences (ks : list A) l :
  NoDup ks → (∀ x, x ∈ l → x ∈ ks) →
  sum_list ((λ k, occurrences k l) <$> ks) = length l.
Proof.
  intros Hnd. induction l as [|y l IH]; intros Hcover.
  - clear Hcover Hnd. induction ks as [|k ks IHk]; [reflexivity|].
    rewrite fmap_cons. simpl. exact IHk.
  - transitivity
      (sum_list ((λ k, if decide (y = k) then 1 else 0)%nat <$> ks)
       + sum_list ((λ k, occurrences k l) <$> ks))%nat.
    + clear. induction ks as [|k ks IHk]; [reflexivity|].
      rewrite !fmap_cons. simpl. rewrite IHk, occurrences_cons. lia.
    + rewrite sum_indicator by (auto; apply Hcover; left).
      rewrite IH; [reflexivity|]. intros x Hx. apply Hcover. by right.
Qed.

Lemma series_get_Some (s : list (A * nat)) k v :
  NoDup s.*1 → (k, v) ∈ s → series_get s k = Some v.
Proof.
  induction s as [|[k' v'] s IH]; simpl; [intros _ []%elem_of_nil|].
  intros [Hk' Hnd]%NoDup_cons [Heq|Hin]%elem_of_cons.
  - simplify_eq. rewrite decide_True by reflexivity. reflexivity.
  - destruct (decide (k' = k)) as [->|Hne]; [|auto].
    exfalso. apply Hk'. apply list_elem_of_fmap. exists (k, v). auto.
Qed.

Lemma series_get_None (s : list (A * nat)) k :
  k ∉ s.*1 → series_get s k = None.
Proof.
  induction s as [|[k' v'] s IH]; simpl; [reflexivity|].
  intros [Hne Hk]%not_elem_of_cons. rewrite decide_False by congruence. auto.
Qed.

#[local] Instance by_count_desc_total : Total (@by_count_desc A).
Proof. intros a b. unfold by_count_desc. lia. Qed.

Lemma value_counts_Permutation l :
  value_counts l ≡ₚ (λ k, (k, occurrences k l)) <$> unique l.
Proof. apply merge_sort_Permutation. Qed.

Lemma value_counts_keys l : (value_counts l).*1 ≡ₚ unique l.
Proof.
  rewrite value_counts_Permutation, <- list_fmap_compose.
  rewrite (list_fmap_ext _ id); [by rewrite list_fmap_id|]. by intros.
Qed.

Lemma value_counts_NoDup l : NoDup (value_counts l).*1.
Proof. rewrite value_counts_keys. apply NoDup_unique. Qed.

Lemma elem_of_value_counts l k c :
  (k, c) ∈ value_counts l ↔ k ∈ l ∧ c = occurrences k l.
Proof.
  rewrite value_counts_Permutation, list_elem_of_fmap. split.
  - intros (k' & Heq & Hk'). simplify_eq. split; [|reflexivity].
    by apply elem_of_unique.
  - intros [Hk ->]. exists k. by rewrite elem_of_unique.
Qed.

Lemma value_counts_Sorted l : Sorted by_count_desc (value_counts l).
Proof. apply (Sorted_merge_sort _). Qed.

Lemma value_counts_sum l : sum_list (value_counts l).*2 = length l.
Proof.
  rewrite value_counts_Permutation, <- list_fmap_compose.
  rewrite (list_fmap_ext _ (λ k, occurrences k l)) by by intros.
  apply sum_occurrences; [apply NoDup_unique|]. intros x. by rewrite elem_of_unique.
Qed.

(** Reindexing the counts of a row gives, for each label, the number of
    its occurrences in the row; zero when it is absent. *)
Lemma reindex_value_counts labels l :
  reindex labels 0%nat (value_counts l) = (λ k, (k, occurrences k l)) <$> labels.
Proof.
  unfold reindex. apply list_fmap_ext. intros _ k _. f_equal.
  destruct (decide (k ∈ l)) as [Hk|Hk].
  - rewrite (series_get_Some _ k (occurrences k l)); [reflexivity| |].
    + apply value_counts_NoDup.
    + by apply elem_of_value_counts.
  - rewrite series_get_None.
    + simpl. symmetry. by apply occurrences_zero.
    + rewrite value_counts_keys, elem_of_unique. exact Hk.
Qed.
End pandas_facts.

Lemma Sorted_lookup_succ {A} (R : relation A) (l : list A) i x y :
  Sorted R l → l !! i = Some x → l !! S i = Some y → R x y.
Proof.
  intros Hs. revert i. induction Hs as [|z l Hs IH Hhd]; intros i; [done|].
  destruct i as [|i]; simpl.
  - intros [= ->] Hy. destruct l as [|z' l]; [done|]. simpl in Hy.
    simplify_eq. by inversion Hhd.
  - apply IH.
Qed.

Lemma elem_of_concat {A} (ls : list (list A)) (x : A) :
  x ∈ concat ls ↔ ∃ l, l ∈ ls ∧ x ∈ l.
Proof.
  induction ls as [|l ls IH]; simpl.
  - split; [intros []%elem_of_nil|intros (l & []%elem_of_nil & _)].
  - rewrite elem_of_app, IH. split.
    + intros [Hx|(l' & Hl' & Hx)]; [exists l|exists l']; split; auto; by constructor.
    + intros (l' & [->|Hl']%elem_of_cons & Hx); eauto.
Qed.

(** ** Analyzer: reading the snapshot *)

Lemma get_results_ok w self a t name :
  analyzers w !! self = Some a → frames w !! results a = Some t →
  Analyzer.get_results self name w = (inr t, w).
Proof.
  intros Ha Ht. unfold Analyzer.get_results. unfold_M. rewrite Ha, Ht. reflexivity.
Qed.

(** ** Jackpot *)

Lemma one_value_all_same (row : list Face) :
  length (unique row) = 1%nat ↔ all_same row = true.
Proof.
  destruct row as [|x r]; [simpl; split; discriminate|].
  unfold unique. simpl. rewrite forallb_forall. split.
  - intros Hlen y Hy%list_elem_of_In. apply bool_decide_eq_true.
    set (u := foldl _ [x] r) in Hlen.
    assert (Hx : x ∈ u) by (apply unique_from_elem_of; left; by constructor).
    assert (Hyu : y ∈ u) by (apply unique_from_elem_of; by right).
    destruct u as [|z [|z' u]]; simplify_eq/=.
    apply list_elem_of_singleton in Hx, Hyu. congruence.
  - intros Hall. rewrite unique_from_same; [reflexivity|].
    apply Forall_forall. intros y Hy%list_elem_of_In.
    by apply Hall, bool_decide_eq_true in Hy.
Qed.

(** C3. [jackpot] returns the number of rolls whose outcomes all have one
    value; that number is at most the number of rolls, and it is the
    number of rolls when every roll has exactly one outcome (a game of one
    die).  The call changes nothing. *)
Theorem jackpot_counts_uniform_rolls (w : World) (self : loc) (a : Analyzer) (t : DataFrame) :
  analyzers w !! self = Some a → frames w !! results a = Some t →
  ∃ j : nat,
    Analyzer.jackpot self w = (inr j, w) ∧
    j = length (filter (λ row, all_same row = true) (df_values t)) ∧
    (j ≤ length (df_values t))%nat ∧
    (Forall (λ row, length row = 1%nat) (df_values t) → j = length (df_values t)).
Proof.
  intros Ha Ht. exists (Analyzer.jackpots t).
  assert (Hj : Analyzer.jackpots t
               = length (filter (λ row, all_same row = true) (df_values t))).
  { unfold Analyzer.jackpots. f_equal. apply list_filter_iff.
    intros row. apply one_value_all_same. }
  split.
  { unfold Analyzer.jackpot. erewrite bind_inr by (eapply get_results_ok; eauto).
    reflexivity. }
  split; [exact Hj|]. split.
  - rewrite Hj. apply length_filter.
  - intros Hone. rewrite Hj. clear Hj. induction Hone as [|row rows Hrow _ IH]; [reflexivity|].
    rewrite filter_cons_True.
    + simpl. by rewrite IH.
    + destruct row as [|x [|y row]]; simplify_eq/=. reflexivity.
Qed.

(** ** Face counts per roll *)

Lemma face_counts_eq (t : DataFrame) :
  let U := unique (concat (df_values t)) in
  Analyzer.face_counts t =
    mkCountsFrame (df_index t) [Some "Roll Number"] U
      ((λ row, (λ k, occurrences k row) <$> U) <$> df_values t).
Proof.
  intros U. unfold Analyzer.face_counts. fold U.
  unfold DataFrame_of_series. f_equal.
  - destruct (df_values t) as [|row rows] eqn:Hv; simpl.
    + reflexivity.
    + rewrite reindex_value_counts, <- list_fmap_compose. simpl.
      rewrite (list_fmap_ext _ id); [by rewrite list_fmap_id|]. by intros.
  - rewrite <- list_fmap_compose. apply list_fmap_ext. intros _ row _. simpl.
    rewrite reindex_value_counts, <- list_fmap_compose. reflexivity.
Qed.

(** C1. [face_counts_per_roll] returns a table with the rows of the
    snapshot (same labels, one per roll) and one column per distinct
    outcome of the snapshot, none repeated; the row of a roll holds, under
    each column, the number of dice that show the column's value in that
    roll, which is 0 exactly when the value is absent from the roll; all
    rows are laid out on the same columns; and when every roll has [d]
    outcomes every row of counts adds up to [d].  The call changes
    nothing. *)
Theorem face_counts_table (w : World) (self : loc) (a : Analyzer) (t : DataFrame) (d : nat) :
  analyzers w !! self = Some a → frames w !! results a = Some t →
  Forall (λ row, length row = d) (df_values t) →
  ∃ fc : CountsFrame,
    Analyzer.face_counts_per_roll self w = (inr fc, w) ∧
    cf_index fc = df_index t ∧
    length (cf_values fc) = length (df_values t) ∧
    NoDup (cf_columns fc) ∧
    (∀ f, f ∈ cf_columns fc ↔ ∃ row, row ∈ df_values t ∧ f ∈ row) ∧
    (∀ i row, df_values t !! i = Some row →
       ∃ counts, cf_values fc !! i = Some counts ∧
         length counts = length (cf_columns fc) ∧
         (∀ j f, cf_columns fc !! j = Some f →
                 counts !! j = Some (occurrences f row) ∧
                 (occurrences f row = 0%nat ↔ f ∉ row)) ∧
         sum_list counts = d).
Proof.
  intros Ha Ht Hshape. exists (Analyzer.face_counts t).
  split.
  { unfold Analyzer.face_counts_per_roll.
    erewrite bind_inr by (eapply get_results_ok; eauto). reflexivity. }
  rewrite face_counts_eq. simpl.
  set (U := unique (concat (df_values t))).
  split; [reflexivity|]. split; [by rewrite length_fmap|].
  split; [apply NoDup_unique|]. split.
  { intros f. unfold U. rewrite elem_of_unique. apply elem_of_concat. }
  intros i row Hrow. exists ((λ k, occurrences k row) <$> U).
  split; [by rewrite list_lookup_fmap, Hrow|].
  split; [by rewrite length_fmap|]. split.
  - intros j f Hj. split; [by rewrite list_lookup_fmap, Hj|apply occurrences_zero].
  - rewrite sum_occurrences.
    + eapply Forall_lookup_1 in Hshape; eauto.
    + apply NoDup_unique.
    + intros x Hx. unfold U. rewrite elem_of_unique. apply elem_of_concat.
      exists row. split; [|assumption]. by eapply list_elem_of_lookup_2.
Qed.

(** ** Sorting a roll *)

#[local] Instance face_le_total : Total face_le.
Proof.
  intros [x|s] [y|t]; simpl; auto.
  - lia.
  - apply (total String.le).
Qed.

#[local] Instance face_le_trans : Transitive face_le.
Proof.
  intros [x|s] [y|t] [z|u]; simpl; try tauto.
  - lia.
  - apply (transitivity (R := String.le)).
Qed.

#[local] Instance face_le_antisym : AntiSymm (=) face_le.
Proof.
  intros [x|s] [y|t]; simpl; try tauto.
  - intros. f_equal. lia.
  - intros H1 H2. f_equal. by apply (anti_symm String.le).
Qed.

(** The sorted tuple is a key of the roll up to the order of the dice. *)
Lemma sorted_key_iff (r k : list Face) :
  Sorted face_le k → (merge_sort face_le r = k ↔ r ≡ₚ k).
Proof.
  intros Hk. split.
  - intros <-. symmetry. apply merge_sort_Permutation.
  - intros Hp. apply (Sorted_unique face_le); [apply (Sorted_merge_sort _)|exact Hk|].
    by rewrite merge_sort_Permutation.
Qed.

Lemma py_sorted_one_type (row : list Face) :
  one_type row → py_sorted row = inr (merge_sort face_le row).
Proof.
  intros Hone. unfold py_sorted.
  assert (existsb is_int row && existsb is_str row = false) as ->; [|reflexivity].
  apply andb_false_iff. destruct Hone as [Hi|Hs].
  - right. apply not_true_is_false. intros (f & Hf%list_elem_of_In & Hstr)%existsb_exists.
    rewrite Forall_forall in Hi. specialize (Hi f Hf). by destruct f.
  - left. apply not_true_is_false. intros (f & Hf%list_elem_of_In & Hint)%existsb_exists.
    rewrite Forall_forall in Hs. specialize (Hs f Hf). by destruct f.
Qed.

Lemma py_sorted_mixed (row : list Face) :
  ¬ one_type row → ∃ msg, py_sorted row = inl (TypeError msg).
Proof.
  intros Hmix. unfold py_sorted.
  destruct (existsb is_int row) eqn:Hi, (existsb is_str row) eqn:Hs; simpl; eauto.
  - exfalso. apply Hmix. left. apply Forall_forall. intros f Hf.
    destruct f; [reflexivity|]. exfalso.
    assert (existsb is_str row = true); [|congruence].
    apply existsb_exists. eexists. split; [by apply list_elem_of_In|reflexivity].
  - exfalso. apply Hmix. right. apply Forall_forall. intros f Hf.
    destruct f; [|reflexivity]. exfalso.
    assert (existsb is_int row = true); [|congruence].
    apply existsb_exists. eexists. split; [by apply list_elem_of_In|reflexivity].
  - exfalso. apply Hmix. left. apply Forall_forall. intros f Hf.
    destruct f; [reflexivity|]. exfalso.
    assert (existsb is_str row = true); [|congruence].
    apply existsb_exists. eexists. split; [by apply list_elem_of_In|reflexivity].
Qed.

Lemma apply_rows_sorted (rows : list (list Face)) :
  Forall one_type rows →
  apply_rows py_sorted rows = inr (merge_sort face_le <$> rows).
Proof.
  induction 1 as [|row rows Hrow _ IH]; [reflexivity|].
  simpl. rewrite (py_sorted_one_type _ Hrow), IH. reflexivity.
Qed.

Lemma apply_rows_inr {B} (f : list Face → exn + B) rows ks :
  apply_rows f rows = inr ks → Forall2 (λ r k, f r = inr k) rows ks.
Proof.
  revert ks. induction rows as [|r rows IH]; simpl; intros ks H.
  - simplify_eq. constructor.
  - destruct (f r) as [e|k] eqn:Hf; [discriminate|].
    destruct (apply_rows f rows) as [e|ks'] eqn:Hr; [discriminate|].
    simplify_eq. constructor; auto.
Qed.

(** ** Combination and permutation counts *)

Lemma combo_count_eq w self a t :
  analyzers w !! self = Some a → frames w !! results a = Some t →
  Analyzer.combo_count self w =
    (match Analyzer.combo_counts t with inl e => inl e | inr c => inr c end, w).
Proof.
  intros Ha Ht. unfold Analyzer.combo_count.
  erewrite bind_inr by (eapply get_results_ok; eauto).
  destruct (Analyzer.combo_counts t); reflexivity.
Qed.

Lemma permutation_count_eq w self a t :
  analyzers w !! self = Some a → frames w !! results a = Some t →
  Analyzer.permutation_count self w = (inr (Analyzer.permutation_counts t), w).
Proof.
  intros Ha Ht. unfold Analyzer.permutation_count.
  erewrite bind_inr by (eapply get_results_ok; eauto). reflexivity.
Qed.

Lemma apply_rows_mixed (rows : list (list Face)) :
  ¬ Forall one_type rows → ∃ msg, apply_rows py_sorted rows = inl (TypeError msg).
Proof.
  induction rows as [|row rows IH]; intros Hmix.
  - exfalso. apply Hmix. constructor.
  - simpl. unfold one_type in *.
    destruct (decide (Forall (λ f, is_int f = true) row
                      ∨ Forall (λ f, is_str f = true) row)) as [Hone|Hrow].
    + rewrite (py_sorted_one_type _ Hone).
      destruct IH as [msg ->]; [|eauto].
      intros Hall. apply Hmix. by constructor.
    + destruct (py_sorted_mixed _ Hrow) as [msg ->]. eauto.
Qed.

Lemma filter_length_pos (P : list Face → Prop) `{!∀ r, Decision (P r)}
    (l : list (list Face)) :
  (0 < length (filter P l))%nat ↔ ∃ r, r ∈ l ∧ P r.
Proof.
  split.
  - destruct (filter P l) as [|r l'] eqn:Hf; simpl; [lia|]. intros _.
    assert (Hr : r ∈ filter P l) by (rewrite Hf; by constructor).
    apply list_elem_of_filter in Hr as [? ?]. eauto.
  - intros (r & Hr & HP).
    assert (Hin : r ∈ filter P l) by (by apply list_elem_of_filter).
    destruct (filter P l); [by apply elem_of_nil in Hin|simpl; lia].
Qed.

(** C2 (amended). On every snapshot [permutation_count] returns a table
    that pairs a tuple [k] with [c] exactly when [c] is the number of
    rolls equal to [k] die by die and [c] is positive.  On a snapshot in
    which the outcomes of each roll have one type, [combo_count] returns a
    table that pairs a tuple [k] with [c] exactly when [k] is sorted, [c]
    is the number of rolls that are [k] up to the order of the dice, and
    [c] is positive.  No key occurs twice in a table, the counts of a
    table add up to the number of rolls, and neither call changes
    anything.  On a snapshot with a roll that mixes integers and strings
    [combo_count] raises [TypeError]. *)
Theorem combo_and_permutation_counts (w : World) (self : loc) (a : Analyzer) (t : DataFrame) :
  analyzers w !! self = Some a → frames w !! results a = Some t →
  (∃ pc : list (list Face * nat),
     Analyzer.permutation_count self w = (inr pc, w) ∧
     NoDup pc.*1 ∧
     (∀ k c, (k, c) ∈ pc ↔
        c = length (filter (λ r, r = k) (df_values t)) ∧ (0 < c)%nat) ∧
     sum_list pc.*2 = length (df_values t)) ∧
  (Forall one_type (df_values t) →
   ∃ cc : list (list Face * nat),
     Analyzer.combo_count self w = (inr cc, w) ∧
     NoDup cc.*1 ∧
     (∀ k c, (k, c) ∈ cc ↔
        Sorted face_le k ∧
        c = length (filter (λ r, r ≡ₚ k) (df_values t)) ∧ (0 < c)%nat) ∧
     sum_list cc.*2 = length (df_values t)) ∧
  (¬ Forall one_type (df_values t) →
   ∃ msg, Analyzer.combo_count self w = (inl (TypeError msg), w)).
Proof.
  intros Ha Ht. set (rows := df_values t) in *. split; [|split].
  - exists (value_counts rows).
    split; [by rewrite (permutation_count_eq _ _ _ _ Ha Ht)|].
    split; [apply value_counts_NoDup|]. split; [|by rewrite value_counts_sum].
    intros k c. rewrite elem_of_value_counts. unfold occurrences. split.
    + intros [Hk ->]. split; [reflexivity|]. apply filter_length_pos. eauto.
    + intros [-> (r & Hr & ->)%filter_length_pos]. split; [exact Hr|reflexivity].
  - intros Hone. exists (value_counts (merge_sort face_le <$> rows)).
    assert (Hcc : Analyzer.combo_counts t
                  = inr (value_counts (merge_sort face_le <$> rows))).
    { unfold Analyzer.combo_counts. fold rows. by rewrite apply_rows_sorted. }
    split; [by rewrite (combo_count_eq _ _ _ _ Ha Ht), Hcc|].
    split; [apply value_counts_NoDup|].
    split; [|by rewrite value_counts_sum, length_fmap].
    intros k c. rewrite elem_of_value_counts, occurrences_fmap, list_elem_of_fmap. split.
    + intros [(r & -> & Hr) ->].
      assert (Hs : Sorted face_le (merge_sort face_le r)) by apply (Sorted_merge_sort _).
      split; [exact Hs|].
      assert (Hf : filter (λ r0, merge_sort face_le r0 = merge_sort face_le r) rows
                   = filter (λ r0, r0 ≡ₚ merge_sort face_le r) rows).
      { apply list_filter_iff. intros r0. by apply sorted_key_iff. }
      rewrite Hf. split; [reflexivity|]. apply filter_length_pos. exists r.
      split; [exact Hr|]. symmetry. apply merge_sort_Permutation.
    + intros (Hs & -> & (r & Hr & Hp)%filter_length_pos). split.
      * exists r. split; [|exact Hr]. symmetry. by apply sorted_key_iff.
      * f_equal. apply list_filter_iff. intros r0. symmetry. by apply sorted_key_iff.
  - intros Hmix. rewrite (combo_count_eq _ _ _ _ Ha Ht).
    unfold Analyzer.combo_counts. fold rows.
    destruct (apply_rows_mixed rows Hmix) as [msg ->]. eauto.
Qed.

(** C10. The table of [permutation_count] is in order of non-increasing
    count: the count of a row is at least the count of the row after it.
    So is the table of [combo_count] whenever it returns one, which it
    does when the outcomes of each roll have one type. *)
Theorem counts_in_decreasing_order (w : World) (self : loc) (a : Analyzer) (t : DataFrame) :
  analyzers w !! self = Some a → frames w !! results a = Some t →
  (∃ pc, Analyzer.permutation_count self w = (inr pc, w) ∧
         ∀ i x y, pc !! i = Some x → pc !! S i = Some y → (y.2 ≤ x.2)%nat) ∧
  (∀ cc w', Analyzer.combo_count self w = (inr cc, w') →
         ∀ i x y, cc !! i = Some x → cc !! S i = Some y → (y.2 ≤ x.2)%nat) ∧
  (Forall one_type (df_values t) →
     ∃ cc, Analyzer.combo_count self w = (inr cc, w)).
Proof.
  intros Ha Ht. split; [|split].
  - exists (Analyzer.permutation_counts t).
    split; [by apply (permutation_count_eq _ _ a)|].
    intros i x y Hx Hy.
    apply (Sorted_lookup_succ by_count_desc _ i x y (value_counts_Sorted _) Hx Hy).
  - intros cc w'. rewrite (combo_count_eq _ _ _ _ Ha Ht).
    unfold Analyzer.combo_counts.
    destruct (apply_rows py_sorted (df_values t)) as [e|ks]; intros H; simplify_eq.
    intros i x y Hx Hy.
    apply (Sorted_lookup_succ by_count_desc _ i x y (value_counts_Sorted _) Hx Hy).
  - intros Hone. eexists. rewrite (combo_count_eq _ _ _ _ Ha Ht).
    unfold Analyzer.combo_counts. by rewrite apply_rows_sorted.
Qed.

(** ** Rolling and playing *)

Lemma take_indices_length a idx l :
  take_indices a idx = inr l → length l = length idx.
Proof.
  revert l. induction idx as [|i idx IH]; simpl; intros l H.
  - by simplify_eq.
  - destruct (a !! i); [|discriminate].
    destruct (take_indices a idx) as [e|xs]; [discriminate|].
    simplify_eq. simpl. f_equal. by apply IH.
Qed.

Lemma take_indices_elem_of a idx l x :
  take_indices a idx = inr l → x ∈ l → x ∈ a.
Proof.
  revert l. induction idx as [|i idx IH]; simpl; intros l H.
  - simplify_eq. by intros ?%elem_of_nil.
  - destruct (a !! i) as [y|] eqn:Hy; [|discriminate].
    destruct (take_indices a idx) as [e|xs]; [discriminate|].
    simplify_eq. intros [->|Hx]%elem_of_cons.
    + by eapply list_elem_of_lookup_2.
    + by eapply IH.
Qed.

Lemma random_samples_length size st :
  length (random_samples size st).1 = size.
Proof.
  revert st. induction size as [|k IH]; intros st; [reflexivity|].
  simpl. specialize (IH (mkRandomState (draws st) (S (pos st)))).
  destruct (random_samples k _) as [us st2]. simpl in *. by rewrite IH.
Qed.

Lemma np_random_choice_length a size p st l st' :
  np_random_choice a size p st = (inr l, st') →
  ∃ n, size = SizeInt n ∧ (0 ≤ n < 2 ^ 60)%Z ∧ length l = Z.to_nat n.
Proof.
  unfold np_random_choice. intros H.
  repeat case_match; simplify_eq.
  eexists. split; [reflexivity|]. split; [lia|].
  match goal with
  | H : take_indices _ _ = inr _ |- _ => apply take_indices_length in H; rewrite H
  end.
  rewrite length_fmap.
  match goal with
  | H : random_samples ?s ?st = (?us, _) |- length ?us = _ =>
      change us with (us, st').1; rewrite <- H; apply random_samples_length
  end.
Qed.

Lemma roll_world self n w r w' :
  Die.roll self n w = (r, w') → ∃ st, w' = with_np_random st w.
Proof.
  unfold Die.roll, Die.draw. unfold_M. intros H.
  assert (Hw : w = with_np_random (np_random w) w) by by destruct w.
  repeat case_match; simplify_eq; eauto.
Qed.

Lemma with_np_random_twice st st' w :
  with_np_random st' (with_np_random st w) = with_np_random st' w.
Proof. reflexivity. Qed.

Lemma roll_each_world ds n w r w' :
  Game.roll_each ds n w = (r, w') → ∃ st, w' = with_np_random st w.
Proof.
  revert w r w'. induction ds as [|die ds IH]; intros w r w'; simpl.
  - unfold_M. intros [= <- <-]. exists (np_random w). by destruct w.
  - unfold mbind, M_bind. destruct (Die.roll die n w) as [[e|c] w1] eqn:Hroll.
    + intros H. simplify_eq. eapply roll_world, Hroll.
    + apply roll_world in Hroll as [st ->].
      destruct (Game.roll_each ds n _) as [[e|cs] w2] eqn:Heach;
        apply IH in Heach as [st2 ->]; unfold mret, M_ret; intros H; simplify_eq;
        eauto.
Qed.

(** A roll that returns was asked for a positive number of outcomes, by
    an int that is no bool. *)
Lemma roll_returns_int self n w l w' :
  Die.roll self n w = (inr l, w') →
  ∃ z, n = IsInt z ∧ (0 < z < 2 ^ 60)%Z ∧ length l = Z.to_nat z.
Proof.
  unfold Die.roll, Die.draw. unfold_M. intros H.
  destruct (dice w !! self) as [d|]; [|discriminate].
  destruct n as [z|[]|]; try discriminate.
  - destruct (decide (z ≤ 0)%Z); [discriminate|].
    destruct (np_random_choice _ _ _ _) as [[e|l'] st] eqn:Hc; simplify_eq.
    apply np_random_choice_length in Hc as (k & [= <-] & Hk & Hlen).
    exists z. split; [reflexivity|]. split; [lia|exact Hlen].
  - destruct (np_random_choice _ _ _ _) as [[e|l'] st] eqn:Hc; simplify_eq.
    apply np_random_choice_length in Hc as (k & Hk & _). discriminate.
Qed.

Lemma roll_length self n w l w' :
  Die.roll self (IsInt n) w = (inr l, w') → (0 < n)%Z ∧ length l = Z.to_nat n.
Proof.
  intros (z & [= <-] & Hz & Hlen)%roll_returns_int. split; [lia|exact Hlen].
Qed.

Lemma roll_each_shape ds n w cols w' :
  Game.roll_each ds (IsInt n) w = (inr cols, w') →
  length cols = length ds ∧ Forall (λ c, length c = Z.to_nat n) cols.
Proof.
  revert w cols w'. induction ds as [|die ds IH]; intros w cols w'; simpl.
  - unfold_M. intros H. simplify_eq. split; [reflexivity|constructor].
  - intros (c & w1 & Hroll & (cs & w2 & Heach & Hret)%bind_inv_inr)%bind_inv_inr.
    unfold mret, M_ret in Hret. simplify_eq.
    apply roll_length in Hroll as [_ Hc]. apply IH in Heach as [Hlen Hall].
    split; [simpl; by rewrite Hlen|by constructor].
Qed.

(** The table of a dict of [d ≥ 1] columns of [n] outcomes has [n] rows
    of [d] cells. *)
Lemma rows_of_columns_shape (cols : list (list Face)) (n : nat) :
  cols ≠ [] → Forall (λ c, length c = n) cols →
  length (rows_of_columns cols) = n ∧
  Forall (λ row, length row = length cols) (rows_of_columns cols).
Proof.
  induction cols as [|c cols IH]; [done|]. intros _ Hall.
  apply Forall_cons in Hall as [Hc Hall].
  destruct cols as [|c' cols].
  - simpl. rewrite length_fmap. split; [exact Hc|].
    apply Forall_fmap, Forall_true. reflexivity.
  - destruct (IH ltac:(done) Hall) as [Hn Hrows].
    change (rows_of_columns (c :: c' :: cols))
      with (zip_with cons c (rows_of_columns (c' :: cols))).
    split.
    + rewrite length_zip_with. lia.
    + apply Forall_forall. intros row Hrow.
      apply elem_of_zip_with in Hrow as (x & r & -> & _ & Hr).
      rewrite Forall_forall in Hrows. simpl. f_equal. by apply Hrows.
Qed.

Lemma stack_row_fst cols ix (row : list Face) :
  length cols = length row →
  (stack_row cols ix row).*1 = (λ c, ix ++ [c]) <$> cols.
Proof.
  unfold stack_row. revert row. induction cols as [|c cols IH]; intros [|v row] Hlen;
    simplify_eq/=; [reflexivity|]. f_equal. auto.
Qed.

Lemma stack_row_snd cols ix (row : list Face) :
  length cols = length row → (stack_row cols ix row).*2 = row.
Proof.
  unfold stack_row. revert row. induction cols as [|c cols IH]; intros [|v row] Hlen;
    simplify_eq/=; [reflexivity|]. f_equal. auto.
Qed.

Lemma stack_wide cols (ixs : list (list label)) (rows : list (list Face)) :
  length ixs = length rows → Forall (λ row, length row = length cols) rows →
  (concat (zip_with (stack_row cols) ixs rows)).*1
    = flat_map (λ ix, (λ c, ix ++ [c]) <$> cols) ixs ∧
  (concat (zip_with (stack_row cols) ixs rows)).*2 = concat rows.
Proof.
  revert rows. induction ixs as [|ix ixs IH]; intros [|row rows] Hlen Hall;
    simplify_eq/=; [done|].
  apply Forall_cons in Hall as [Hrow Hall].
  destruct (IH rows Hlen Hall) as [IH1 IH2].
  rewrite !fmap_app, IH1, IH2, stack_row_fst, stack_row_snd by done. done.
Qed.

Lemma length_concat_uniform {A} (ls : list (list A)) (d : nat) :
  Forall (λ l, length l = d) ls → length (concat ls) = (length ls * d)%nat.
Proof.
  induction 1 as [|l ls Hl _ IH]; [reflexivity|].
  simpl. rewrite length_app, IH, Hl. reflexivity.
Qed.

Lemma play_success self n w w' :
  Game.play self n w = (inr tt, w') →
  ∃ g cols st,
    games w !! self = Some g ∧
    Game.roll_each (Game__dice g) n w = (inr cols, with_np_random st w) ∧
    w' = with_games (insert self (mkGame (Game__dice g) (Some (fresh (dom (frames w))))))
           (with_frames
              (insert (fresh (dom (frames w)))
                 (mkDataFrame (df_index (DataFrame_of_dict cols)) [Some "Roll Number"]
                    (df_columns (DataFrame_of_dict cols))
                    (df_values (DataFrame_of_dict cols))))
              (with_np_random st w)).
Proof.
  unfold Game.play. unfold get_game. unfold mbind at 1. unfold M_bind at 1.
  destruct (games w !! self) as [g|] eqn:Hg; [|unfold_M; discriminate].
  intros H.
  assert (Hbody : Game.roll_and_store self g n w = (inr tt, w')).
  { destruct n as [z|[]|]; try (revert H; unfold_M; discriminate); [|exact H].
    destruct (decide (z ≤ 0)%Z); [revert H; unfold_M; discriminate|exact H]. }
  clear H. revert Hbody. unfold Game.roll_and_store.
  intros (cols & w1 & Heach & H)%bind_inv_inr.
  destruct (roll_each_world _ _ _ _ _ Heach) as [st ->].
  revert H. unfold_M. intros H. simplify_eq.
  exists g, cols, st. repeat split. exact Heach.
Qed.

Lemma show_wide self w g r t :
  games w !! self = Some g → Game__results g = Some r → frames w !! r = Some t →
  Game.show self "wide" w =
    (inr (fresh (dom (frames w))), with_frames (insert (fresh (dom (frames w))) t) w).
Proof.
  intros Hg Hr Ht. unfold Game.show. unfold_M. rewrite Hg, Hr. simpl. by rewrite Ht.
Qed.

Lemma show_narrow self w g r t :
  games w !! self = Some g → Game__results g = Some r → frames w !! r = Some t →
  Game.show self "narrow" w =
    (inr (fresh (dom (frames w))),
     with_frames
       (insert (fresh (dom (frames w)))
          (mkDataFrame (stack t).*1 [Some "Roll Number"; Some "Die Number"]
             [LStr "Outcome"] ((λ e, [e.2]) <$> stack t))) w).
Proof.
  intros Hg Hr Ht. unfold Game.show. unfold_M. rewrite Hg, Hr. simpl. by rewrite Ht.
Qed.

Lemma flat_map_labels (l : list nat) (d : nat) :
  flat_map (λ ix, (λ c, ix ++ [c]) <$> (LInt <$> seq 0 d)) ((λ i, [LInt i]) <$> l)
  = flat_map (λ i, (λ j, [LInt i; LInt j]) <$> seq 0 d) l.
Proof.
  induction l as [|i l IH]; [reflexivity|].
  rewrite fmap_cons. cbn [flat_map]. rewrite IH. f_equal.
  rewrite <- list_fmap_compose. reflexivity.
Qed.

(** C6. After a successful [play] of [n] rolls on a game of [d ≥ 1]
    dice, [show('wide')] returns a table of [n] rows, labelled 0 to
    [n - 1], and [d] columns, labelled 0 to [d - 1]; [show('narrow')]
    returns a table of [n * d] rows with the single column Outcome, whose
    row labels are the pairs (roll number, die number) roll by roll and,
    within a roll, die by die, and whose cells are those of the wide table
    read row by row. *)
Theorem play_then_show (w w' : World) (self : loc) (g : Game) (n : Z) :
  games w !! self = Some g → Game__dice g ≠ [] →
  Game.play self (IsInt n) w = (inr tt, w') →
  ∃ (rw rn : loc) (wide narrow : DataFrame) (w1 w2 : World),
    Game.show self "wide" w' = (inr rw, w1) ∧ frames w1 !! rw = Some wide ∧
    length (df_values wide) = Z.to_nat n ∧
    Forall (λ row, length row = length (Game__dice g)) (df_values wide) ∧
    df_index wide = (λ i, [LInt i]) <$> seq 0 (Z.to_nat n) ∧
    df_columns wide = LInt <$> seq 0 (length (Game__dice g)) ∧
    Game.show self "narrow" w' = (inr rn, w2) ∧ frames w2 !! rn = Some narrow ∧
    length (df_values narrow) = (Z.to_nat n * length (Game__dice g))%nat ∧
    df_index narrow =
      flat_map (λ i, (λ j, [LInt i; LInt j]) <$> seq 0 (length (Game__dice g)))
        (seq 0 (Z.to_nat n)) ∧
    df_columns narrow = [LStr "Outcome"] ∧
    df_values narrow = (λ v, [v]) <$> concat (df_values wide).
Proof.
  intros Hg Hdice Hplay.
  apply play_success in Hplay as (g' & cols & st & Hg' & Heach & ->).
  rewrite Hg in Hg'. injection Hg' as <-.
  apply roll_each_shape in Heach as [Hcols Hall].
  assert (Hne : cols ≠ []) by (intros ->; by destruct (Game__dice g)).
  destruct (rows_of_columns_shape cols _ Hne Hall) as [Hn Hrows].
  set (r := fresh (dom (frames w))).
  set (t := mkDataFrame _ _ _ _).
  set (w' := with_games _ _).
  assert (Hgame : games w' !! self = Some (mkGame (Game__dice g) (Some r)))
    by apply lookup_insert_eq.
  assert (Ht : frames w' !! r = Some t) by apply lookup_insert_eq.
  assert (Hix : df_index t = (λ i, [LInt i]) <$> seq 0 (Z.to_nat n)).
  { subst t. simpl. unfold range_labels. rewrite Hn, <- list_fmap_compose. done. }
  assert (Hcl : df_columns t = LInt <$> seq 0 (length (Game__dice g))).
  { subst t. simpl. unfold range_labels. by rewrite Hcols. }
  assert (Hvl : Forall (λ row, length row = length (df_columns t)) (df_values t)).
  { rewrite Hcl, length_fmap, length_seq, <- Hcols. exact Hrows. }
  assert (Hlen : length (df_values t) = Z.to_nat n) by exact Hn.
  clearbody t.
  destruct (stack_wide (df_columns t) (df_index t) (df_values t)) as [Hs1 Hs2];
    [|exact Hvl|].
  { by rewrite Hix, length_fmap, length_seq, Hlen. }
  fold (stack t) in Hs1, Hs2.
  assert (Hd : Forall (λ row, length row = length (Game__dice g)) (df_values t)).
  { by rewrite Hcl, length_fmap, length_seq in Hvl. }
  eexists _, _, t, _, _, _.
  split; [eapply show_wide; eauto|]. split; [apply lookup_insert_eq|].
  split; [exact Hlen|]. split; [exact Hd|].
  split; [exact Hix|]. split; [exact Hcl|].
  split; [eapply show_narrow; eauto|]. split; [apply lookup_insert_eq|].
  cbn [df_values df_index df_columns]. split; [|split; [|split]].
  - rewrite length_fmap, <- (length_fmap snd), Hs2.
    by rewrite (length_concat_uniform _ _ Hd), Hlen.
  - rewrite Hs1, Hix, Hcl. apply flat_map_labels.
  - reflexivity.
  - rewrite <- Hs2, <- list_fmap_compose. reflexivity.
Qed.

(** ** The analyzer's snapshot *)

Lemma fresh_frame_ne (w : World) (r : loc) :
  is_Some (frames w !! r) → r ≠ fresh (dom (frames w)).
Proof.
  intros Hr ->. apply elem_of_dom in Hr. by apply is_fresh in Hr.
Qed.

Lemma analyzer_init_success g w self w1 :
  Analyzer.init (IsGame g) w = (inr self, w1) →
  ∃ gm r t,
    games w !! g = Some gm ∧ Game__results gm = Some r ∧ frames w !! r = Some t ∧
    w1 = with_analyzers
           (insert self (mkAnalyzer g (fresh (dom (frames w)))))
           (with_frames (insert (fresh (dom (frames w))) t) w).
Proof.
  unfold Analyzer.init, Game.show. unfold_M. intros H.
  repeat case_match; simplify_eq. eauto 10.
Qed.

(** What [play] does to the tables and the analyzers of a store: the
    analyzers stay, and at most one table is added, at a new location. *)
Lemma play_frames self n w res w' :
  Game.play self n w = (res, w') →
  analyzers w' = analyzers w ∧
  (frames w' = frames w ∨
   ∃ t, frames w' = <[fresh (dom (frames w)) := t]> (frames w)).
Proof.
  destruct res as [e|[]].
  - intros Hc%play_error. unfold objects in Hc. simplify_eq. auto.
  - intros (g & cols & st & _ & _ & ->)%play_success. simpl. eauto.
Qed.

Lemma statistics_of_snapshot w self a t :
  analyzers w !! self = Some a → frames w !! results a = Some t →
  Analyzer.jackpot self w = (inr (Analyzer.jackpots t), w) ∧
  Analyzer.face_counts_per_roll self w = (inr (Analyzer.face_counts t), w) ∧
  Analyzer.combo_count self w =
    (match Analyzer.combo_counts t with inl e => inl e | inr c => inr c end, w) ∧
  Analyzer.permutation_count self w = (inr (Analyzer.permutation_counts t), w).
Proof.
  intros Ha Ht. split; [|split; [|split]].
  - unfold Analyzer.jackpot. by erewrite bind_inr by (eapply get_results_ok; eauto).
  - unfold Analyzer.face_counts_per_roll.
    by erewrite bind_inr by (eapply get_results_ok; eauto).
  - by apply (combo_count_eq _ _ a).
  - by apply (permutation_count_eq _ _ a).
Qed.

Lemma fresh_analyzer_ne (w : World) (s : loc) :
  is_Some (analyzers w !! s) → s ≠ fresh (dom (analyzers w)).
Proof.
  intros Hs ->. apply elem_of_dom in Hs. by apply is_fresh in Hs.
Qed.

(** Every call of the library, whether it returns or raises, leaves the
    tables and the analyzers of the store in place: tables and analyzers
    are only ever added, at new locations. *)
Lemma run_keeps_tables (c : call) (w w' : World) (res : option exn) :
  run c w = (res, w') →
  (∀ r t, frames w !! r = Some t → frames w' !! r = Some t) ∧
  (∀ s a, analyzers w !! s = Some a → analyzers w' !! s = Some a).
Proof.
  assert (Hnew : ∀ t,
    (∀ r t', frames w !! r = Some t' →
       (<[fresh (dom (frames w)) := t]> (frames w)) !! r = Some t')).
  { intros t r t' Hr. rewrite lookup_insert_ne; [exact Hr|].
    intros Heq. symmetry in Heq. revert Heq. apply fresh_frame_ne. eauto. }
  assert (Hobj : objects w' = objects w →
    (∀ r t, frames w !! r = Some t → frames w' !! r = Some t) ∧
    (∀ s a, analyzers w !! s = Some a → analyzers w' !! s = Some a)).
  { unfold objects. intros [= _ _ -> ->]. auto. }
  destruct c as [faces|self face x|self n|self|l|self n|self form|ga|self|self|self|self];
    simpl; unfold outcome.
  - unfold Die.init. unfold_M. intros H. repeat case_match; simplify_eq; auto.
  - unfold Die.change_weight. unfold_M. intros H. repeat case_match; simplify_eq; auto.
  - destruct (Die.roll self n w) as [r w1] eqn:Hr. apply roll_objects in Hr.
    intros H. apply Hobj. destruct r; injection H as _ <-; exact Hr.
  - unfold Die.show. unfold_M. intros H. repeat case_match; simplify_eq; auto.
  - unfold Game.init. unfold_M. intros H. repeat case_match; simplify_eq; auto.
  - destruct (Game.play self n w) as [r w1] eqn:Hp.
    apply play_frames in Hp as [Han Hfr].
    intros H. assert (w1 = w') as -> by (destruct r; by injection H as _ <-).
    rewrite Han. split; [|auto].
    destruct Hfr as [->|[t ->]]; [auto|apply Hnew].
  - unfold Game.show. unfold_M. intros H.
    repeat case_match; simplify_eq; simpl; auto.
  - unfold Analyzer.init, Game.show. unfold_M. intros H.
    repeat case_match; simplify_eq; simpl; auto.
    split; [apply Hnew|].
    intros s a Hs. rewrite lookup_insert_ne; [exact Hs|].
    intros Heq. symmetry in Heq. revert Heq. apply fresh_analyzer_ne. eauto.
  - unfold Analyzer.jackpot, Analyzer.get_results. unfold_M. intros H.
    repeat case_match; simplify_eq; auto.
  - unfold Analyzer.face_counts_per_roll, Analyzer.get_results. unfold_M. intros H.
    repeat case_match; simplify_eq; auto.
  - unfold Analyzer.combo_count, Analyzer.get_results. unfold_M. intros H.
    repeat case_match; simplify_eq; auto.
  - unfold Analyzer.permutation_count, Analyzer.get_results. unfold_M. intros H.
    repeat case_match; simplify_eq; auto.
Qed.

Lemma run_all_keeps_tables (cs : list call) (w : World) :
  (∀ r t, frames w !! r = Some t → frames (run_all cs w) !! r = Some t) ∧
  (∀ s a, analyzers w !! s = Some a → analyzers (run_all cs w) !! s = Some a).
Proof.
  unfold run_all. revert w. induction cs as [|c cs IH]; intros w; simpl; [auto|].
  destruct (run c w) as [res w'] eqn:Hrun. simpl.
  destruct (run_keeps_tables _ _ _ _ Hrun) as [Hf Ha].
  destruct (IH w') as [Hf' Ha']. split; eauto.
Qed.

Lemma run_all_app (cs cs' : list call) (w : World) :
  run_all (cs ++ cs') w = run_all cs' (run_all cs w).
Proof. unfold run_all. apply foldl_app. Qed.

(** C9. An analyzer constructed from a played game holds a table of its
    own: a copy, at another location, of the table the game holds at that
    moment.  Let any calls of the library follow, then a [play] on the
    game, which may succeed or fail, then any calls again (further plays
    of the game among them): the analyzer and its table are afterwards
    what they were at construction, and [jackpot],
    [face_counts_per_roll], [combo_count] and [permutation_count] return
    what they returned then. *)
Theorem analyzer_keeps_snapshot (w w1 w2 : World) (g self : loc) (n : int_arg)
    (res : exn + unit) (before after : list call) :
  Analyzer.init (IsGame g) w = (inr self, w1) →
  Game.play g n (run_all before w1) = (res, w2) →
  let w3 := run_all after w2 in
  ∃ (a : Analyzer) (t : DataFrame) (gm : Game) (r : loc),
    analyzers w1 !! self = Some a ∧ frames w1 !! results a = Some t ∧
    games w1 !! g = Some gm ∧ Game__results gm = Some r ∧
    results a ≠ r ∧ frames w1 !! r = Some t ∧
    analyzers w3 !! self = Some a ∧ frames w3 !! results a = Some t ∧
    (Analyzer.jackpot self w3).1 = (Analyzer.jackpot self w1).1 ∧
    (Analyzer.face_counts_per_roll self w3).1 = (Analyzer.face_counts_per_roll self w1).1 ∧
    (Analyzer.combo_count self w3).1 = (Analyzer.combo_count self w1).1 ∧
    (Analyzer.permutation_count self w3).1 = (Analyzer.permutation_count self w1).1.
Proof.
  intros Hinit Hplay w3.
  apply analyzer_init_success in Hinit as (gm & r & t & Hgm & Hr & Ht & ->).
  set (r' := fresh (dom (frames w))) in *.
  set (a := mkAnalyzer g r').
  set (w1 := with_analyzers _ _) in *.
  assert (Hne : r ≠ r') by (apply fresh_frame_ne; by rewrite Ht).
  assert (Ha1 : analyzers w1 !! self = Some a) by apply lookup_insert_eq.
  assert (Ht1 : frames w1 !! results a = Some t) by apply lookup_insert_eq.
  assert (Hr1 : frames w1 !! r = Some t)
    by (simpl; rewrite lookup_insert_ne by congruence; exact Ht).
  assert (Hw3 : w3 = run_all (before ++ GamePlay g n :: after) w1).
  { subst w3. rewrite run_all_app. unfold run_all at 2. simpl. unfold outcome.
    rewrite Hplay. by destruct res. }
  destruct (run_all_keeps_tables (before ++ GamePlay g n :: after) w1) as [Hf Ha].
  rewrite <- Hw3 in Hf, Ha.
  pose proof (Ha _ _ Ha1) as Ha3. pose proof (Hf _ _ Ht1) as Ht3.
  exists a, t, gm, r.
  destruct (statistics_of_snapshot _ _ _ _ Ha1 Ht1) as (J1 & F1 & C1 & P1).
  destruct (statistics_of_snapshot _ _ _ _ Ha3 Ht3) as (J2 & F2 & C2 & P2).
  rewrite J1, J2, F1, F2, C1, C2, P1, P2.
  repeat split; auto.
Qed.

(** ** Sampling *)

Lemma foldl_Qplus a l : (foldl Qplus a l == a + Qsum l)%Q.
Proof.
  revert a. induction l as [|x l IH]; intros a; simpl.
  - lra.
  - rewrite IH. lra.
Qed.

Lemma py_sum_Qsum l : (py_sum l == Qsum l)%Q.
Proof. unfold py_sum. rewrite foldl_Qplus. lra. Qed.

Lemma Qsum_nonneg l : Forall (λ q, 0 <= q)%Q l → (0 <= Qsum l)%Q.
Proof. induction 1 as [|x l Hx _ IH]; simpl; lra. Qed.

Lemma Qsum_div l t : ¬ (t == 0)%Q → (Qsum ((λ w, w / t)%Q <$> l) == Qsum l / t)%Q.
Proof.
  intros Ht. induction l as [|x l IH]; simpl.
  - field. exact Ht.
  - rewrite IH. field. exact Ht.
Qed.

Lemma np_divide_finite ws t :
  ¬ (t == 0)%Q → np_divide ws t = Some <$> ((λ w, w / t)%Q <$> ws).
Proof.
  intros Ht. unfold np_divide. rewrite <- list_fmap_compose.
  apply list_fmap_ext. intros _ x _. simpl.
  destruct (Qeq_bool t 0) eqn:E; [|reflexivity].
  by apply Qeq_bool_iff in E.
Qed.

Lemma np_divide_zero ws t :
  (t == 0)%Q → np_divide ws t = (λ _, None) <$> ws.
Proof.
  intros Ht. unfold np_divide. apply list_fmap_ext. intros _ x _.
  apply Qeq_bool_iff in Ht. by rewrite Ht.
Qed.

Lemma np_sum_nan (ws : list Q) : ws ≠ [] → np_sum ((λ _, None) <$> ws) = None.
Proof.
  unfold np_sum. generalize (Some 0%Q). induction ws as [|x ws IH]; [done|].
  intros acc _. simpl. destruct ws as [|y ws].
  - simpl. by destruct acc.
  - apply IH. done.
Qed.

Lemma random_samples_state size st :
  (random_samples size st).2 = mkRandomState (draws st) (size + pos st).
Proof.
  revert st. induction size as [|k IH]; intros st; [by destruct st|].
  simpl. specialize (IH (mkRandomState (draws st) (S (pos st)))).
  destruct (random_samples k _) as [us st2]. simpl in *. rewrite IH. simpl.
  f_equal. lia.
Qed.

(** A sample is a fraction in [0, 1). *)
Lemma random_sample_range st :
  (0 <= (random_sample st).1 ∧ (random_sample st).1 < 1)%Q.
Proof.
  pose proof (Z.mod_pos_bound (draws st (pos st)) two53 eq_refl) as [Hlo Hhi].
  unfold random_sample. cbn [fst]. unfold Qle, Qlt. cbn [Qnum Qden].
  rewrite (Z2Pos.id two53) by reflexivity. lia.
Qed.

Lemma random_samples_range size st :
  Forall (λ u, 0 <= u ∧ u < 1)%Q (random_samples size st).1.
Proof.
  revert st. induction size as [|k IH]; intros st; [constructor|].
  cbn [random_samples]. pose proof (random_sample_range st) as Hu.
  destruct (random_sample st) as [u st1]. specialize (IH st1).
  destruct (random_samples k st1) as [us st2]. cbn [fst] in *. by constructor.
Qed.

Lemma last_fmap_ne {A B} (f : A → B) (l : list A) d d' :
  l ≠ [] → List.last (f <$> l) d' = f (List.last l d).
Proof.
  induction l as [|x l IH]; [done|]. intros _.
  destruct l as [|y l]; [reflexivity|].
  change (List.last (f <$> x :: y :: l) d') with (List.last (f <$> y :: l) d').
  change (List.last (x :: y :: l) d) with (List.last (y :: l) d).
  by apply IH.
Qed.

Lemma last_cumsum_from acc p :
  p ≠ [] → (List.last (cumsum_from acc p) 0 == acc + Qsum p)%Q.
Proof.
  revert acc. induction p as [|x p IH]; [done|]. intros acc _.
  destruct p as [|y p].
  - simpl. lra.
  - change (List.last (cumsum_from acc (x :: y :: p)) 0%Q)
      with (List.last (cumsum_from (acc + x)%Q (y :: p)) 0%Q).
    rewrite IH by done. simpl. lra.
Qed.

Lemma cumsum_from_length acc p : length (cumsum_from acc p) = length p.
Proof. revert acc. induction p; intros; simpl; auto. Qed.

(** The search stops inside the array when the sample is below its last
    entry. *)
Lemma searchsorted_right_lt cdf u :
  cdf ≠ [] → (u < List.last cdf 0)%Q → (searchsorted_right cdf u < length cdf)%nat.
Proof.
  induction cdf as [|c cdf IH]; [done|]. intros _ Hu. simpl.
  destruct (Qle_bool c u) eqn:E; [|lia].
  apply Qle_bool_iff in E. destruct cdf as [|c' cdf].
  - simpl in Hu. lra.
  - apply ->Nat.succ_lt_mono. apply IH; [done|]. exact Hu.
Qed.

Lemma take_indices_total a idx :
  Forall (λ i, i < length a)%nat idx →
  ∃ l, take_indices a idx = inr l ∧ Forall2 (λ i x, a !! i = Some x) idx l.
Proof.
  induction 1 as [|i idx Hi _ (l & Hl & Hrel)]; simpl.
  - exists []. split; [reflexivity|constructor].
  - apply lookup_lt_is_Some_2 in Hi as [x Hx]. rewrite Hx, Hl.
    exists (x :: l). split; [reflexivity|by constructor].
Qed.

Lemma np_sum_from_None (p : list npfloat) :
  foldl (λ acc x, a ← acc; b ← x; Some (a + b)%Q) None p = None.
Proof. induction p as [|x p IH]; simpl; auto. Qed.

Lemma np_sum_from_Some (p : list npfloat) (a s : Q) :
  foldl (λ acc x, a ← acc; b ← x; Some (a + b)%Q) (Some a) p = Some s →
  p = Some <$> omap id p ∧ s = foldl Qplus a (omap id p).
Proof.
  revert a. induction p as [|[x|] p IH]; intros a; simpl.
  - intros [= ->]. done.
  - intros H. destruct (IH _ H) as [Hp Hs]. split; [|exact Hs].
    f_equal. exact Hp.
  - rewrite np_sum_from_None. discriminate.
Qed.

Lemma take_indices_inr a idx l :
  take_indices a idx = inr l → Forall2 (λ i x, a !! i = Some x) idx l.
Proof.
  revert l. induction idx as [|i idx IH]; simpl; intros l H.
  - simplify_eq. constructor.
  - destruct (a !! i) as [y|] eqn:Hy; [|discriminate].
    destruct (take_indices a idx) as [e|xs]; [discriminate|].
    simplify_eq. constructor; auto.
Qed.

(** A call of [np.random.choice] that returns went through every test of
    the probabilities, was given a size it can hold, took that many
    samples and looked each one up in the normalised running sums. *)
Lemma np_random_choice_success a size p st l st' :
  np_random_choice a size p st = (inr l, st') →
  ∃ n : Z,
    size = SizeInt n ∧ (0 ≤ n < 2 ^ 60)%Z ∧
    st' = (random_samples (Z.to_nat n) st).2 ∧
    (a = [] → n = 0%Z) ∧
    ∃ pq : list Q,
      p = Some <$> pq ∧ length pq = length a ∧
      (Qabs (Qsum pq - 1) <= atol)%Q ∧
      Forall2
        (λ u x, a !! searchsorted_right
                       ((λ c, c / List.last (cumsum pq) 0)%Q <$> cumsum pq) u = Some x)
        (random_samples (Z.to_nat n) st).1 l.
Proof.
  unfold np_random_choice. intros H.
  destruct (decide (a = [] ∧ size ≠ SizeInt 0)) as [|Hempty]; [discriminate|].
  destruct (decide (length p ≠ length a)) as [|Hlen]; [discriminate|].
  destruct (np_sum p) as [p_sum|] eqn:Hsum; [|discriminate].
  apply np_sum_from_Some in Hsum as [Hp Hs].
  destruct (existsb _ _); [discriminate|].
  destruct (negb _) eqn:Htol; [discriminate|].
  destruct size as [n|]; [|discriminate].
  destruct (decide (n < 0)%Z); [discriminate|].
  destruct (decide (2 ^ 64 ≤ n)%Z); [discriminate|].
  destruct (decide (2 ^ 63 ≤ n)%Z); [discriminate|].
  destruct (decide (2 ^ 60 ≤ n)%Z); [discriminate|].
  destruct (random_samples (Z.to_nat n) st) as [us st2] eqn:Hus.
  injection H as H <-. exists n. rewrite Hus.
  split; [reflexivity|]. split; [lia|]. split; [reflexivity|].
  split.
  { intros ->. destruct (decide (n = 0%Z)) as [|Hn0]; [assumption|].
    exfalso. apply Hempty. split; [reflexivity|congruence]. }
  exists (omap id p). split; [exact Hp|]. split.
  { apply dec_stable in Hlen. rewrite <- Hlen. rewrite Hp at 2.
    by rewrite length_fmap. }
  split.
  { apply negb_false_iff, Qle_bool_iff in Htol.
    assert (Heq : (Qsum (omap id p) - 1 == p_sum - 1)%Q)
      by (rewrite Hs, foldl_Qplus; lra).
    by rewrite Heq. }
  apply take_indices_inr in H. cbn [fst].
  by apply Forall2_fmap_l in H.
Qed.

Lemma np_divide_Some_inv ws t pq :
  np_divide ws t = Some <$> pq → ws ≠ [] →
  ¬ (t == 0)%Q ∧ pq = (λ w, w / t)%Q <$> ws.
Proof.
  intros H Hws.
  destruct (Qeq_bool t 0) eqn:E.
  - exfalso. destruct ws as [|x ws]; [done|]. destruct pq as [|y pq]; [done|].
    unfold np_divide in H. rewrite !fmap_cons, E in H. discriminate.
  - assert (Ht : ¬ (t == 0)%Q) by (intros Ht%Qeq_bool_iff; congruence).
    split; [exact Ht|]. rewrite np_divide_finite in H by exact Ht.
    apply (inj (fmap Some)) in H. by symmetry.
Qed.

Lemma Qsum_take_div ws t k :
  ¬ (t == 0)%Q →
  (Qsum (take k ((λ w, w / t)%Q <$> ws)) == Qsum (take k ws) / t)%Q.
Proof. intros Ht. rewrite <- fmap_take. by apply Qsum_div. Qed.

Lemma cumsum_from_lookup acc p k c :
  cumsum_from acc p !! k = Some c → (c == acc + Qsum (take (S k) p))%Q.
Proof.
  revert acc k. induction p as [|x p IH]; intros acc k; [done|].
  destruct k as [|k]; simpl.
  - intros [= <-]. destruct p; simpl; lra.
  - intros H%IH. rewrite H. simpl. lra.
Qed.

(** What the search returns: the first entry above the sample. *)
Lemma searchsorted_right_spec cdf u :
  (∀ k c, (k < searchsorted_right cdf u)%nat → cdf !! k = Some c → (c <= u)%Q) ∧
  (∀ c, cdf !! searchsorted_right cdf u = Some c → (u < c)%Q).
Proof.
  induction cdf as [|c0 cdf [IH1 IH2]]; simpl.
  - split; [intros; lia|done].
  - destruct (Qle_bool c0 u) eqn:E.
    + apply Qle_bool_iff in E. split.
      * intros [|k] c Hk; simpl; [by intros [= <-]|]. apply IH1. lia.
      * simpl. exact IH2.
    + split; [intros; lia|]. simpl. intros c [= <-].
      apply Qnot_le_lt. intros Hle%Qle_bool_iff. congruence.
Qed.

Lemma Qsum_take_S ws i q :
  ws !! i = Some q → (Qsum (take (S i) ws) == Qsum (take i ws) + q)%Q.
Proof.
  revert i. induction ws as [|x ws IH]; intros i; [done|].
  destruct i as [|i]; simpl.
  - intros [= ->]. destruct ws; simpl; lra.
  - intros H%IH. rewrite H. lra.
Qed.

Lemma Forall2_and_l {A B} (P : A → B → Prop) (R : A → Prop) l k :
  Forall2 P l k → Forall R l → Forall2 (λ x y, R x ∧ P x y) l k.
Proof.
  induction 1 as [|x y l k Hxy _ IH]; intros HR; [constructor|].
  apply Forall_cons in HR as [Hx HR]. constructor; auto.
Qed.

(** A roll that returns: the count is positive, the sum of the weights is
    not zero, only the generator has moved, by as many samples as there
    are outcomes, and the outcome drawn for the sample [u] is the face
    whose slice of the unit interval holds [u]; the slices follow the
    order of the faces and the slice of a face is as wide as its share
    of the total weight. *)
Lemma roll_success_draws w self d n l w' :
  dice w !! self = Some d →
  Die.roll self (IsInt n) w = (inr l, w') →
  (0 < n)%Z ∧
  w' = with_np_random (random_samples (Z.to_nat n) (np_random w)).2 w ∧
  ¬ (py_sum (Die.weight d) == 0)%Q ∧
  Forall2
    (λ u x, ∃ i q,
       Die__df d !! i = Some (x, q) ∧
       (Qsum (take i (Die.weight d)) / py_sum (Die.weight d) <= u)%Q ∧
       (u < (Qsum (take i (Die.weight d)) + q) / py_sum (Die.weight d))%Q)
    (random_samples (Z.to_nat n) (np_random w)).1 l.
Proof.
  intros Hd. unfold Die.roll, Die.draw. unfold_M. rewrite Hd.
  destruct (decide (n ≤ 0)%Z) as [|Hn]; [discriminate|].
  destruct (np_random_choice _ _ _ _) as [r st] eqn:Hc. intros [= -> <-].
  apply np_random_choice_success in Hc
    as (n' & [= <-] & Hbound & -> & Hempty & pq & Hp & Hlen & _ & Hdraw).
  split; [lia|]. split; [reflexivity|].
  set (ws := Die.weight d) in *. set (t := py_sum ws) in *.
  assert (Hws : ws ≠ []).
  { intros Hnil. assert (Die.index d = []) as Hi.
    { unfold Die.index. subst ws. unfold Die.weight in Hnil.
      by destruct (Die__df d). }
    apply Hempty in Hi. lia. }
  destruct (np_divide_Some_inv _ _ _ Hp Hws) as [Ht ->].
  split; [exact Ht|].
  set (pq := (λ w, w / t)%Q <$> ws) in *.
  assert (Hpq : pq ≠ []) by (subst pq; by destruct ws).
  assert (HL : (List.last (cumsum pq) 0 == 1)%Q).
  { unfold cumsum. rewrite last_cumsum_from by exact Hpq.
    subst pq. rewrite Qsum_div by exact Ht.
    pose proof (py_sum_Qsum ws) as Hsum. fold t in Hsum. rewrite <- Hsum.
    field. exact Ht. }
  pose proof (random_samples_range (Z.to_nat n) (np_random w)) as Hrange.
  eapply Forall2_impl; [apply (Forall2_and_l _ _ _ _ Hdraw Hrange)|].
  clear Hdraw Hrange. intros u x [[Hu0 Hu1] Hx]. simpl in Hx.
  set (cdf' := (λ c, c / List.last (cumsum pq) 0)%Q <$> cumsum pq) in *.
  set (i := searchsorted_right cdf' u) in *.
  assert (Hxq : ∃ q, Die__df d !! i = Some (x, q)).
  { unfold Die.index in Hx. rewrite list_lookup_fmap in Hx.
    destruct (Die__df d !! i) as [[x' q]|]; simplify_eq/=. eauto. }
  destruct Hxq as [q Hq]. exists i, q. split; [exact Hq|].
  assert (Hwq : ws !! i = Some q).
  { subst ws. unfold Die.weight. by rewrite list_lookup_fmap, Hq. }
  assert (Hentry : ∀ k c, cdf' !! k = Some c → (c == Qsum (take (S k) ws) / t)%Q).
  { intros k c Hk. subst cdf'. rewrite list_lookup_fmap in Hk.
    destruct (cumsum pq !! k) as [c0|] eqn:Hc0; simplify_eq/=.
    apply cumsum_from_lookup in Hc0. rewrite Hc0, HL.
    subst pq. rewrite Qsum_take_div by exact Ht. field. exact Ht. }
  destruct (searchsorted_right_spec cdf' u) as [Hbelow Habove]. fold i in Hbelow, Habove.
  split.
  - destruct i as [|k] eqn:Hi.
    + rewrite take_0. simpl.
      assert (0 / t == 0)%Q as -> by (field; exact Ht). exact Hu0.
    + assert (Hk : is_Some (cdf' !! k)).
      { apply lookup_lt_is_Some. subst cdf' pq. unfold cumsum.
        rewrite length_fmap, cumsum_from_length, length_fmap.
        apply lookup_lt_Some in Hwq. lia. }
      destruct Hk as [c Hc]. rewrite <- (Hentry k c Hc).
      apply (Hbelow k c); [lia|exact Hc].
  - assert (Hi' : is_Some (cdf' !! i)).
    { apply lookup_lt_is_Some. subst cdf' pq. unfold cumsum.
      rewrite length_fmap, cumsum_from_length, length_fmap.
      by apply lookup_lt_Some in Hwq. }
    destruct Hi' as [c Hc]. rewrite <- (Qsum_take_S ws i q Hwq).
    rewrite <- (Hentry i c Hc). by apply Habove.
Qed.

(** [np.random.choice] raises before it samples: an exception leaves the
    generator where it was. *)
Lemma np_random_choice_error a size p st e st' :
  np_random_choice a size p st = (inl e, st') → st' = st.
Proof.
  unfold np_random_choice. intros H.
  destruct (decide (a = [] ∧ size ≠ SizeInt 0)) as [|Hempty]; [by simplify_eq|].
  destruct (decide (length p ≠ length a)) as [|Hlen]; [by simplify_eq|].
  destruct (np_sum p) as [p_sum|] eqn:Hsum; [|by simplify_eq].
  apply np_sum_from_Some in Hsum as [Hp Hs].
  destruct (existsb _ _); [by simplify_eq|].
  destruct (negb _) eqn:Htol; [by simplify_eq|].
  destruct size as [n|]; [|by simplify_eq].
  destruct (decide (n < 0)%Z); [by simplify_eq|].
  destruct (decide (2 ^ 64 ≤ n)%Z); [by simplify_eq|].
  destruct (decide (2 ^ 63 ≤ n)%Z); [by simplify_eq|].
  destruct (decide (2 ^ 60 ≤ n)%Z); [by simplify_eq|].
  exfalso.
  apply negb_false_iff, Qle_bool_iff in Htol.
  apply dec_stable in Hlen.
  assert (Hlq : length (omap id p) = length a).
  { rewrite <- Hlen. rewrite Hp at 2. by rewrite length_fmap. }
  clear Hp Hlen.
  set (pq := omap id p) in *.
  assert (Hsum : (1 - atol <= Qsum pq)%Q).
  { assert (Heq : (p_sum == Qsum pq)%Q) by (rewrite Hs, foldl_Qplus; lra).
    rewrite <- Heq. apply Qabs_Qle_condition in Htol. lra. }
  assert (Hatol : (atol < 1)%Q) by reflexivity.
  pose proof (random_samples_range (Z.to_nat n) st) as Hrange.
  pose proof (random_samples_length (Z.to_nat n) st) as Hsize.
  destruct (random_samples (Z.to_nat n) st) as [us st2]. cbn [fst] in *.
  destruct (take_indices_total a (searchsorted_right
              ((λ c, c / List.last (cumsum pq) 0)%Q <$> cumsum pq) <$> us))
    as (l & Hl & _); [|rewrite Hl in H; discriminate].
  apply Forall_forall. intros i (u & -> & Hu)%list_elem_of_fmap.
  rewrite Forall_forall in Hrange. destruct (Hrange u Hu) as [Hu0 Hu1].
  assert (Hpq : pq ≠ []).
  { intros Hnil. apply Hempty. split.
    - rewrite Hnil in Hlq. by destruct a.
    - intros [= ->]. destruct us; [by apply elem_of_nil in Hu|discriminate]. }
  assert (Hlast : (List.last (cumsum pq) 0 == Qsum pq)%Q).
  { unfold cumsum. rewrite last_cumsum_from by exact Hpq. lra. }
  assert (Hcdf : cumsum pq ≠ []) by (unfold cumsum; by destruct pq).
  replace (length a) with
    (length ((λ c, c / List.last (cumsum pq) 0)%Q <$> cumsum pq)).
  2:{ unfold cumsum. by rewrite length_fmap, cumsum_from_length. }
  apply searchsorted_right_lt; [by destruct (cumsum pq)|].
  rewrite (last_fmap_ne _ _ 0%Q) by exact Hcdf.
  assert (List.last (cumsum pq) 0 / List.last (cumsum pq) 0 == 1)%Q as ->;
    [|exact Hu1].
  field. rewrite Hlast. lra.
Qed.

Lemma roll_eq w self d n :
  dice w !! self = Some d → (0 < n)%Z →
  Die.roll self (IsInt n) w =
    (let '(r, st) :=
       np_random_choice (Die.index d) (SizeInt n)
         (np_divide (Die.weight d) (py_sum (Die.weight d))) (np_random w) in
     (r, with_np_random st w)).
Proof.
  intros Hd Hn. unfold Die.roll, Die.draw. unfold_M. rewrite Hd.
  rewrite decide_False by lia. reflexivity.
Qed.

(** An outcome of a roll is a face of the die whose weight is not 0: the
    slice of the unit interval of a face without weight is empty. *)
Lemma roll_draws_weighted w self d n l w' :
  dice w !! self = Some d →
  Die.roll self n w = (inr l, w') →
  Forall (λ x, ∃ k q, Die__df d !! k = Some (x, q) ∧ ¬ (q == 0)%Q) l.
Proof.
  intros Hd Hroll.
  destruct (roll_returns_int _ _ _ _ _ Hroll) as (z & -> & _).
  destruct (roll_success_draws _ _ _ _ _ _ Hd Hroll) as (_ & _ & Ht & Hdraw).
  eapply Forall2_Forall_r; [exact Hdraw|]. apply Forall_true.
  intros u x (k & q & Hk & Hlo & Hhi). exists k, q. split; [exact Hk|].
  intros Hq. rewrite Hq in Hhi.
  assert (Heq : ((Qsum (take k (Die.weight d)) + 0) / py_sum (Die.weight d)
                 == Qsum (take k (Die.weight d)) / py_sum (Die.weight d))%Q)
    by (field; exact Ht).
  rewrite Heq in Hhi. lra.
Qed.

(** A roll returns only on a die that has a face of positive weight. *)
Lemma roll_returns_weight w self d n l w' :
  dice w !! self = Some d → Forall (λ q, 0 <= q)%Q (Die.weight d) →
  Die.roll self n w = (inr l, w') →
  ∃ f q, (f, q) ∈ Die__df d ∧ (0 < q)%Q.
Proof.
  intros Hd Hnn Hroll.
  destruct (roll_returns_int _ _ _ _ _ Hroll) as (z & Hn & Hz & Hlen).
  pose proof (roll_draws_weighted _ _ _ _ _ _ Hd Hroll) as Hdraw.
  rewrite Forall_forall in Hdraw.
  destruct l as [|x l]; [simpl in Hlen; lia|].
  destruct (Hdraw x) as (k & q & Hk & Hq); [by left|].
  exists x, q. split; [by eapply list_elem_of_lookup_2|].
  rewrite Forall_forall in Hnn.
  assert (Hq0 : (0 <= q)%Q).
  { apply Hnn. apply list_elem_of_fmap. exists (x, q). split; [reflexivity|].
    by eapply list_elem_of_lookup_2. }
  destruct (Qlt_le_dec 0 q) as [|Hle]; [assumption|].
  exfalso. apply Hq. lra.
Qed.


(** C5 (amended). A die that has faces, all of weight 0, rolled a
    positive number of times: the division of the weights by their sum
    is carried out and gives a value that is not a number for every face;
    the call then ends with the [ValueError] that [np.random.choice]
    raises on such probabilities, and leaves the store, the generator
    included, as it was. *)
Theorem roll_all_zero (w : World) (self : loc) (d : Die) (n : Z) :
  dice w !! self = Some d → Die__df d ≠ [] → (0 < n)%Z →
  Forall (λ q, q == 0)%Q (Die.weight d) →
  np_divide (Die.weight d) (py_sum (Die.weight d)) = (λ _, None) <$> Die.weight d ∧
  Die.roll self (IsInt n) w = (inl (ValueError "probabilities contain NaN"), w).
Proof.
  intros Hd Hne Hn Hzero.
  assert (Ht : (py_sum (Die.weight d) == 0)%Q).
  { rewrite py_sum_Qsum. induction Hzero as [|x l Hx _ IH]; simpl; lra. }
  assert (Hws : Die.weight d ≠ [])
    by (unfold Die.weight; by destruct (Die__df d)).
  split; [by apply np_divide_zero|].
  rewrite (roll_eq _ _ d) by assumption.
  rewrite np_divide_zero by exact Ht. unfold np_random_choice.
  rewrite decide_False.
  2:{ intros [Hi _]. unfold Die.index in Hi. by destruct (Die__df d). }
  rewrite decide_False.
  2:{ intros H. apply H. unfold Die.index, Die.weight. by rewrite !length_fmap. }
  rewrite np_sum_nan by exact Hws. by destruct w.
Qed.

(** ** The invariants hold of every store the library can build *)

Lemma remove_dups_length_le (l : list Face) : (length (remove_dups l) ≤ length l)%nat.
Proof.
  induction l as [|x l IH]; simpl; [lia|].
  destruct (decide_rel elem_of x l); simpl; lia.
Qed.

Lemma remove_dups_same_length (l : list Face) :
  length l = length (remove_dups l) → NoDup l.
Proof.
  induction l as [|x l IH]; simpl; [intros; constructor|].
  pose proof (remove_dups_length_le l).
  destruct (decide_rel elem_of x l); simpl; intros Hlen; [lia|].
  constructor; [assumption|]. apply IH. lia.
Qed.

Lemma empty_world_ok st : World_ok (empty_world st).
Proof. split; simpl; intros *; by rewrite lookup_empty. Qed.

Lemma World_ok_objects w w' : objects w' = objects w → World_ok w → World_ok w'.
Proof.
  unfold objects. intros [= Hd Hg Hf Ha] [H1 H2 H3 H4].
  split; intros *; rewrite ?Hd, ?Hg, ?Hf, ?Ha; eauto.
Qed.

Lemma World_ok_new_frame w t :
  World_ok w → World_ok (with_frames (insert (fresh (dom (frames w))) t) w).
Proof.
  intros [H1 H2 H3 H4]. split; simpl; intros *; eauto.
  - intros Hg Hr. destruct (H3 _ _ _ Hg Hr) as [t' Ht'].
    rewrite lookup_insert_ne; [eauto|]. intros Heq. symmetry in Heq. revert Heq.
    apply fresh_frame_ne. eauto.
  - intros Ha. destruct (H4 _ _ Ha) as [t' Ht'].
    rewrite lookup_insert_ne; [eauto|]. intros Heq. symmetry in Heq. revert Heq.
    apply fresh_frame_ne. eauto.
Qed.

Lemma init_die_ok (a : ndarray) :
  length (to_list a) = length (remove_dups (to_list a)) →
  Die_ok (mkDie ((λ f, (f, 1%Q)) <$> to_list a)).
Proof.
  intros Hlen. split.
  - unfold Die.index. simpl. rewrite <- list_fmap_compose.
    rewrite (list_fmap_ext _ id) by by intros. rewrite list_fmap_id.
    by apply remove_dups_same_length.
  - unfold Die.weight. simpl. rewrite <- list_fmap_compose.
    apply Forall_fmap, Forall_true. intros f. simpl. discriminate.
Qed.

Lemma change_weight_die_ok d face x :
  Die_ok d → (0 <= x)%Q → Die_ok (mkDie (set_at face x (Die__df d))).
Proof.
  intros [Hnd Hnn] Hx. split.
  - unfold Die.index. simpl. by rewrite set_at_index.
  - unfold Die.weight. simpl. by apply set_at_weights_nonneg.
Qed.

(** Every call, whether it returns or raises, keeps the invariants. *)
Lemma run_preserves_ok (c : call) (w w' : World) (r : option exn) :
  World_ok w → run c w = (r, w') → World_ok w'.
Proof.
  intros Hok. destruct r as [e|].
  { intros H. eapply World_ok_objects; [|exact Hok].
    revert H. clear Hok.
    destruct c; simpl; unfold outcome;
      try (destruct (Game.play _ _ _) as [[?|?] ?] eqn:Hp; intros H; simplify_eq;
           by eapply play_error);
      try (destruct (Game.show _ _ _) as [[?|?] ?] eqn:Hp; intros H; simplify_eq;
           apply show_error in Hp; by subst);
      try (destruct (Die.roll _ _ _) as [[?|?] ?] eqn:Hp; intros H; simplify_eq;
           by eapply roll_objects).
    - unfold Die.init. unfold_M. intros H. repeat case_match; simplify_eq; reflexivity.
    - unfold Die.change_weight. unfold_M. intros H.
      repeat case_match; simplify_eq; reflexivity.
    - unfold Die.show. unfold_M. intros H. repeat case_match; simplify_eq; reflexivity.
    - unfold Game.init. unfold_M. intros H. repeat case_match; simplify_eq; reflexivity.
    - unfold Analyzer.init, Game.show. unfold_M. intros H.
      repeat case_match; simplify_eq; reflexivity.
    - unfold Analyzer.jackpot, Analyzer.get_results. unfold_M. intros H.
      repeat case_match; simplify_eq; reflexivity.
    - unfold Analyzer.face_counts_per_roll, Analyzer.get_results. unfold_M. intros H.
      repeat case_match; simplify_eq; reflexivity.
    - unfold Analyzer.combo_count, Analyzer.get_results. unfold_M. intros H.
      repeat case_match; simplify_eq; reflexivity.
    - unfold Analyzer.permutation_count, Analyzer.get_results. unfold_M. intros H.
      repeat case_match; simplify_eq; reflexivity. }
  destruct c as [faces|self face x|self n|self|l|self n|self form|ga|self|self|self|self];
    simpl; unfold outcome.
  - unfold Die.init. unfold_M. intros H. repeat case_match; simplify_eq.
    destruct Hok as [K1 K2 K3 K4]. split; simpl; eauto.
    intros r d [[<- <-]|[_ Hd]]%lookup_insert_Some; [|eauto].
    apply init_die_ok. lia.
  - unfold Die.change_weight. unfold_M. intros H. repeat case_match; simplify_eq.
    destruct Hok as [K1 K2 K3 K4]. split; simpl; eauto.
    intros r' d' [[<- <-]|[_ Hd]]%lookup_insert_Some; [|eauto].
    apply change_weight_die_ok; eauto.
  - destruct (Die.roll self n w) as [[?|?] w1] eqn:Hp; intros H; simplify_eq.
    eapply World_ok_objects; [|exact Hok]. by eapply roll_objects.
  - unfold Die.show. unfold_M. intros H. repeat case_match; by simplify_eq.
  - unfold Game.init. unfold_M. intros H. repeat case_match; simplify_eq.
    destruct Hok as [K1 K2 K3 K4]. split; simpl; eauto.
    + intros r g [[<- <-]|[_ Hg]]%lookup_insert_Some; [|eauto].
      simpl. intros ->. done.
    + intros r g t [[<- <-]|[_ Hg]]%lookup_insert_Some; [done|eauto].
  - destruct (Game.play self n w) as [[?|[]] w1] eqn:Hp; intros H; simplify_eq.
    apply play_success in Hp as (g & cols & st & Hg & Heach & ->).
    assert (Hok1 : World_ok (with_np_random st w))
      by (eapply World_ok_objects; [|exact Hok]; reflexivity).
    apply (World_ok_new_frame _
             (mkDataFrame (df_index (DataFrame_of_dict cols)) [Some "Roll Number"]
                (df_columns (DataFrame_of_dict cols))
                (df_values (DataFrame_of_dict cols)))) in Hok1.
    destruct Hok1 as [K1 K2 K3 K4]. destruct Hok as [_ K2' _ _].
    split; simpl in *; eauto.
    + intros r g' [[<- <-]|[_ Hg']]%lookup_insert_Some; [|eauto]. simpl. eauto.
    + intros r g' t [[<- <-]|[_ Hg']]%lookup_insert_Some; [|eauto].
      simpl. intros [= <-]. rewrite lookup_insert_eq. eauto.
  - destruct (Game.show self form w) as [[?|?] w1] eqn:Hp; intros H; simplify_eq.
    revert Hp. unfold Game.show. unfold_M. intros H.
    repeat case_match; simplify_eq; by apply World_ok_new_frame.
  - destruct (Analyzer.init ga w) as [[?|?] w1] eqn:Hp; intros H; simplify_eq.
    destruct ga as [g|]; [|revert Hp; unfold Analyzer.init; unfold_M; discriminate].
    apply analyzer_init_success in Hp as (gm & r & t & Hgm & Hr & Ht & ->).
    pose proof (World_ok_new_frame w t Hok) as [K1 K2 K3 K4].
    split; simpl in *; eauto.
    intros r' a [[<- <-]|[_ Ha]]%lookup_insert_Some; [|eauto].
    simpl. rewrite lookup_insert_eq. eauto.
  - unfold Analyzer.jackpot, Analyzer.get_results. unfold_M. intros H.
    repeat case_match; by simplify_eq.
  - unfold Analyzer.face_counts_per_roll, Analyzer.get_results. unfold_M. intros H.
    repeat case_match; by simplify_eq.
  - unfold Analyzer.combo_count, Analyzer.get_results. unfold_M. intros H.
    repeat case_match; by simplify_eq.
  - unfold Analyzer.permutation_count, Analyzer.get_results. unfold_M. intros H.
    repeat case_match; by simplify_eq.
Qed.

Lemma run_all_ok (cs : list call) (w : World) :
  World_ok w → World_ok (run_all cs w).
Proof.
  unfold run_all. revert w. induction cs as [|c cs IH]; intros w Hok; simpl; [exact Hok|].
  apply IH. destruct (run c w) as [r w'] eqn:Hrun. simpl.
  eapply run_preserves_ok; eauto.
Qed.

(** X19. The invariants of the store hold after any sequence of calls
    made from the empty store, whichever of them return or raise: the
    faces of every die are distinct and none of its weights is negative,
    no game has an empty list of dice, and the table a game or an
    analyzer refers to is in the store. *)
Theorem reachable_ok (cs : list call) (st : RandomState) :
  World_ok (run_all cs (empty_world st)).
Proof. apply run_all_ok, empty_world_ok. Qed.

(* ================================================================== *)
(** * The properties on the example sessions *)

Ltac by_computation := vm_compute; reflexivity.

Lemma fair_world_analyzer : analyzers fair_world !! 0%nat = Some (mkAnalyzer 0 1).
Proof. by_computation. Qed.

Lemma fair_world_snapshot : frames fair_world !! 1%nat = Some fair_snapshot.
Proof. by_computation. Qed.

Lemma fair_snapshot_one_type : Forall one_type (df_values fair_snapshot).
Proof. repeat (apply Forall_cons_2; [left; repeat constructor|]). constructor. Qed.

Lemma face_counts_table_witness :
  ∃ fc : CountsFrame,
    Analyzer.face_counts_per_roll 0%nat fair_world = (inr fc, fair_world) ∧
    NoDup (cf_columns fc) ∧
    (∀ i row, df_values fair_snapshot !! i = Some row →
       ∃ counts, cf_values fc !! i = Some counts ∧ sum_list counts = 2%nat).
Proof.
  destruct (face_counts_table fair_world 0%nat (mkAnalyzer 0 1) fair_snapshot 2)
    as (fc & Hcall & _ & _ & Hnd & _ & Hcells).
  - vm_compute; reflexivity.
  - vm_compute; reflexivity.
  - repeat constructor.
  - exists fc. split; [exact Hcall|]. split; [exact Hnd|].
    intros i row Hrow. destruct (Hcells i row Hrow) as (counts & Hc & _ & _ & Hsum).
    exists counts. split; assumption.
Defined.

Lemma combo_and_permutation_counts_witness :
  (∃ pc, Analyzer.permutation_count 0%nat fair_world = (inr pc, fair_world) ∧
         sum_list pc.*2 = 5%nat) ∧
  (∃ cc, Analyzer.combo_count 0%nat fair_world = (inr cc, fair_world) ∧
         sum_list cc.*2 = 5%nat).
Proof.
  destruct (combo_and_permutation_counts fair_world 0%nat (mkAnalyzer 0 1) fair_snapshot)
    as [(pc & Hp & _ & _ & Hpsum) [Hcombo _]].
  - vm_compute; reflexivity.
  - vm_compute; reflexivity.
  - destruct (Hcombo fair_snapshot_one_type) as (cc & Hc & _ & _ & Hcsum).
    split; [exists pc|exists cc]; split; assumption.
Defined.

Lemma jackpot_counts_uniform_rolls_witness :
  ∃ j : nat,
    Analyzer.jackpot 0%nat fair_world = (inr j, fair_world) ∧ (j ≤ 5)%nat.
Proof.
  destruct (jackpot_counts_uniform_rolls fair_world 0%nat (mkAnalyzer 0 1) fair_snapshot)
    as (j & Hcall & _ & Hle & _).
  - vm_compute; reflexivity.
  - vm_compute; reflexivity.
  - exists j. split; [exact Hcall|exact Hle].
Defined.

Lemma counts_in_decreasing_order_witness :
  ∃ pc, Analyzer.permutation_count 0%nat fair_world = (inr pc, fair_world) ∧
        ∀ i x y, pc !! i = Some x → pc !! S i = Some y → (y.2 ≤ x.2)%nat.
Proof.
  destruct (counts_in_decreasing_order fair_world 0%nat (mkAnalyzer 0 1) fair_snapshot)
    as [Hperm _].
  - vm_compute; reflexivity.
  - vm_compute; reflexivity.
  - exact Hperm.
Defined.



Lemma roll_all_zero_witness :
  Die.roll 0%nat (IsInt 100) dead_world
  = (inl (ValueError "probabilities contain NaN"), dead_world).
Proof.
  apply (roll_all_zero dead_world 0%nat (mkDie [(FStr "H", 0%Q); (FStr "T", 0%Q)]) 100).
  - vm_compute; reflexivity.
  - discriminate.
  - lia.
  - repeat constructor.
Defined.

Lemma play_then_show_witness :
  ∃ (rw rn : loc) (wide narrow : DataFrame) (w1 w2 : World),
    Game.show 0%nat "wide" played_world = (inr rw, w1) ∧
    frames w1 !! rw = Some wide ∧ length (df_values wide) = 5%nat ∧
    Forall (λ row, length row = 2%nat) (df_values wide) ∧
    Game.show 0%nat "narrow" played_world = (inr rn, w2) ∧
    frames w2 !! rn = Some narrow ∧ length (df_values narrow) = 10%nat.
Proof.
  destruct (play_then_show setup_world played_world 0%nat (mkGame [0%nat; 1%nat] None) 5)
    as (rw & rn & wide & narrow & w1 & w2 & H1 & H2 & H3 & H4 & _ & _ & H5 & H6 & H7 & _).
  - vm_compute; reflexivity.
  - discriminate.
  - vm_compute; reflexivity.
  - exists rw, rn, wide, narrow, w1, w2. repeat split; assumption.
Defined.

(** A play that fails at its second die after the first has been rolled:
    the dice, the game and its earlier table are untouched. *)
Lemma failure_leaves_objects_witness :
  objects (run (GamePlay 0%nat (IsInt 3)) stale_world).2 = objects stale_world.
Proof.
  apply (failure_leaves_objects (GamePlay 0%nat (IsInt 3)) stale_world _
           (ValueError "probabilities contain NaN")).
  vm_compute; reflexivity.
Defined.

(** The generator, which is no object of the library, does move in that
    failed play: the first die was rolled. *)
Example failed_play_moves_generator :
  pos (np_random stale_world) = 4%nat ∧
  pos (np_random (run (GamePlay 0%nat (IsInt 3)) stale_world).2) = 7%nat.
Proof. split; vm_compute; reflexivity. Qed.

Lemma change_weight_frame_witness :
  ∃ (w' : World) (tbl : list (Face * Q)),
    Die.change_weight 0%nat (FInt 6) (WNumber (7 # 2)) fair_world = (inr tt, w') ∧
    Die.show 0%nat w' = (inr tbl, w') ∧
    tbl !! 5%nat = Some (FInt 6, 7 # 2) ∧ tbl !! 0%nat = Some (FInt 1, 1%Q) ∧
    dice w' !! 1%nat = dice fair_world !! 1%nat ∧
    Die.change_weight 0%nat (FInt 6) (WNumber (7 # 2)) w' = (inr tt, w').
Proof.
  destruct (change_weight_frame fair_world 0%nat
              (mkDie ((λ f, (FInt f, 1%Q)) <$> [1; 2; 3; 4; 5; 6]%Z)) (FInt 6) (7 # 2))
    as (w' & tbl & H1 & H2 & _ & H3 & H4 & _ & _ & _ & _ & H5).
  - vm_compute; reflexivity.
  - apply list_elem_of_In. simpl. tauto.
  - discriminate.
  - exists w', tbl. split; [exact H1|]. split; [exact H2|].
    split; [apply (H3 5%nat (FInt 6) 1%Q); reflexivity|].
    split; [apply (H3 0%nat (FInt 1) 1%Q); reflexivity|].
    split; [apply H4; discriminate|exact H5].
Defined.

(** Two plays of the game, a change of weight between them, and a
    second analyzer afterwards: the first analyzer still holds the five
    rolls it was constructed with. *)
Lemma analyzer_keeps_snapshot_witness :
  let w2 := (Game.play 0%nat (IsInt 4)
               (run_all [GamePlay 0%nat (IsInt 2);
                         DieChangeWeight 0%nat (FInt 1) (WNumber 0)] fair_world)).2 in
  let w3 := run_all [GameShow 0%nat "narrow"; AnalyzerInit (IsGame 0%nat)] w2 in
  frames w3 !! 1%nat = Some fair_snapshot ∧
  (Analyzer.jackpot 0%nat w3).1 = (Analyzer.jackpot 0%nat fair_world).1 ∧
  (Analyzer.permutation_count 0%nat w3).1
    = (Analyzer.permutation_count 0%nat fair_world).1.
Proof.
  intros w2 w3.
  destruct (analyzer_keeps_snapshot played_world fair_world w2 0%nat 0%nat (IsInt 4)
              (inr tt)
              [GamePlay 0%nat (IsInt 2); DieChangeWeight 0%nat (FInt 1) (WNumber 0)]
              [GameShow 0%nat "narrow"; AnalyzerInit (IsGame 0%nat)])
    as (a & t & gm & r & Ha & Ht & _ & _ & _ & _ & _ & Ht2 & Hj & _ & _ & Hp).
  - vm_compute; reflexivity.
  - vm_compute; reflexivity.
  - assert (Ea : Some a = Some (mkAnalyzer 0 1))
      by (rewrite <- Ha; vm_compute; reflexivity).
    injection Ea as ->. cbn [results] in *.
    assert (Et : Some t = Some fair_snapshot)
      by (rewrite <- Ht; vm_compute; reflexivity).
    injection Et as ->.
    split; [exact Ht2|]. split; [exact Hj|exact Hp].
Defined.

(** ** Where the stated claims fail *)

(** C2 as stated: on the snapshot of a game of an integer die and a
    string die, [combo_count] returns no table; [sorted] cannot compare
    the two outcomes of a roll. *)
Lemma combo_count_raises_on_mixed_rolls :
  mixed_session (empty_world example_random) = (inr 0%nat, mixed_world) ∧
  (∃ t, Analyzer.get_results 0%nat "results" mixed_world = (inr t, mixed_world) ∧
        df_values t = [[FInt 2; FStr "b"]; [FInt 2; FStr "a"]; [FInt 2; FStr "a"]]) ∧
  (∃ msg, Analyzer.combo_count 0%nat mixed_world = (inl (TypeError msg), mixed_world)) ∧
  ¬ ∃ cc w', Analyzer.combo_count 0%nat mixed_world = (inr cc, w').
Proof.
  split; [vm_compute; reflexivity|]. split; [|split].
  - eexists. split; vm_compute; reflexivity.
  - eexists. vm_compute. reflexivity.
  - intros (cc & w' & H). vm_compute in H. discriminate.
Qed.


(** C5 as stated: the weights are divided by their zero sum, which gives
    not-a-number for both faces, and the exception is the one raised
    inside [np.random.choice], not one that [roll] raises itself. *)
Lemma roll_divides_by_zero_sum :
  np_divide [0; 0]%Q (py_sum [0; 0]%Q) = [None; None] ∧
  Die.roll 0%nat (IsInt 1) dead_world
  = (inl (ValueError "probabilities contain NaN"), dead_world) ∧
  Die.roll 0%nat (IsInt 0) dead_world
  = (inl (ValueError "Number of rolls must be a positive integer."), dead_world).
Proof. repeat split; vm_compute; reflexivity. Qed.

(** The two tables on the rolls (1, 2) and (2, 1): one combination, two
    permutations. *)
Example combination_and_permutation_keys :
  let t := mkDataFrame [[LInt 0]; [LInt 1]] [Some "Roll Number"] [LInt 0; LInt 1]
             [[FInt 1; FInt 2]; [FInt 2; FInt 1]] in
  Analyzer.combo_counts t = inr [([FInt 1; FInt 2], 2%nat)] ∧
  Analyzer.permutation_counts t
  = [([FInt 1; FInt 2], 1%nat); ([FInt 2; FInt 1], 1%nat)].
Proof. split; vm_compute; reflexivity. Qed.

(* ================================================================== *)
(** * Further properties of the code *)

(** ** What a successful draw is *)


(** X1. [roll] touches no die, game, table or analyzer.  When it raises
    it leaves the generator alone as well: nothing has been sampled.  On a
    die, a count that is no int, or is not positive ([False] included),
    raises the [ValueError] of [roll].  When [roll] returns, the count was
    a positive integer below [2 ^ 60], there are as many outcomes as the
    count says and the generator has moved by exactly that many
    samples. *)
Theorem roll_effect (w w' : World) (self : loc) (n : int_arg) (r : exn + list Face) :
  Die.roll self n w = (r, w') →
  objects w' = objects w ∧
  (is_Some (dice w !! self) →
   n = NotInt ∨ n = IsBool false ∨ (∃ z, n = IsInt z ∧ (z ≤ 0)%Z) →
   r = inl (ValueError "Number of rolls must be a positive integer.")) ∧
  match r with
  | inl e => w' = w
  | inr l =>
      ∃ z, n = IsInt z ∧ (0 < z < 2 ^ 60)%Z ∧ length l = Z.to_nat z ∧
           np_random w' =
             mkRandomState (draws (np_random w)) (Z.to_nat z + pos (np_random w))
  end.
Proof.
  intros H. split; [by eapply roll_objects|].
  revert H. unfold Die.roll, Die.draw. unfold_M.
  destruct (dice w !! self) as [d|] eqn:Hd.
  2:{ intros [= <- <-]. split; [by intros [? ?]|reflexivity]. }
  split.
  { intros _ [->|[->|(z & -> & Hz)]]; [by simplify_eq..|].
    rewrite decide_True in H by exact Hz. by simplify_eq. }
  revert H.
  assert (Hdraw : ∀ size,
    (let '(r0, st) :=
       np_random_choice (Die.index d) size
         (np_divide (Die.weight d) (py_sum (Die.weight d))) (np_random w) in
     (r0, with_np_random st w)) = (r, w') →
    match r with
    | inl _ => w' = w
    | inr l =>
        ∃ z, size = SizeInt z ∧ (0 ≤ z < 2 ^ 60)%Z ∧ length l = Z.to_nat z ∧
             np_random w' =
               mkRandomState (draws (np_random w)) (Z.to_nat z + pos (np_random w))
    end).
  { intros size. destruct (np_random_choice _ _ _ _) as [r' st] eqn:Hc.
    intros [= -> <-]. destruct r as [e|l].
    - apply np_random_choice_error in Hc as ->. by destruct w.
    - apply np_random_choice_length in Hc as Hlen.
      destruct Hlen as (z & Hsize & Hz & Hlen).
      apply np_random_choice_success in Hc as (z' & Hsize' & _ & -> & _).
      assert (z' = z) as -> by congruence.
      exists z. split; [exact Hsize|]. split; [lia|]. split; [exact Hlen|].
      simpl. apply random_samples_state. }
  destruct n as [z|[]|]; [| | |].
  - destruct (decide (z ≤ 0)%Z) as [|Hz]; [by intros [= <- <-]|].
    intros H%Hdraw. destruct r as [e|l]; [exact H|].
    destruct H as (z' & [= <-] & Hbound & Hlen & Hst).
    exists z. split; [reflexivity|]. split; [lia|]. split; [exact Hlen|exact Hst].
  - intros H%Hdraw. destruct r as [e|l]; [exact H|].
    by destruct H as (z' & [=] & _).
  - by intros [= <- <-].
  - by intros [= <- <-].
Qed.


(** ** Dice in the store *)

Lemma remove_dups_NoDup_length (l : list Face) :
  NoDup l → length l = length (remove_dups l).
Proof.
  induction 1 as [|x l Hx _ IH]; simpl; [reflexivity|].
  destruct (decide_rel elem_of x l); [contradiction|]. simpl. by rewrite IH.
Qed.

(** X5. Constructing a die from what is no array raises [TypeError].
    From an array it succeeds exactly when no face occurs twice in it;
    duplicates raise [ValueError].  A raise leaves the store as it was.  The new die is at a location that held no die, [show]
    lists the faces in the order of the array, each with weight 1, and
    nothing else in the store has changed. *)
Theorem init_die_outcome (w : World) (a : ndarray) :
  Die.init NotArray w
  = (inl (TypeError "Faces must be provided as a NumPy array."), w) ∧
  (NoDup (to_list a) →
   ∃ r w', Die.init (Array a) w = (inr r, w') ∧
     dice w !! r = None ∧
     Die.show r w' = (inr ((λ f, (f, 1%Q)) <$> to_list a), w') ∧
     (∀ r', r' ≠ r → dice w' !! r' = dice w !! r') ∧
     games w' = games w ∧ frames w' = frames w ∧ analyzers w' = analyzers w ∧
     np_random w' = np_random w) ∧
  (¬ NoDup (to_list a) →
   Die.init (Array a) w = (inl (ValueError "Faces must contain unique values."), w)).
Proof.
  unfold Die.init. unfold_M. split; [reflexivity|]. split.
  - intros Hnd%remove_dups_NoDup_length.
    rewrite decide_False by (intros H; by apply H).
    eexists _, _. split; [reflexivity|]. split.
    { apply not_elem_of_dom, is_fresh. }
    split.
    { unfold Die.show. unfold_M. simpl. by rewrite lookup_insert_eq. }
    split; [|done]. intros r' Hr'. simpl. by rewrite lookup_insert_ne.
  - intros Hdup. rewrite decide_True; [reflexivity|].
    intros Hlen. by apply Hdup, remove_dups_same_length.
Qed.

(** X6. The outcome of [change_weight] on a die of the store.  A face the
    die does not have raises [IndexError], whatever the weight given.  For
    a face of the die: a string that is no number raises the [TypeError]
    of [change_weight]; what [float] does not take raises the [TypeError]
    of [float]; an int too large for a float raises [OverflowError], which
    [change_weight] does not catch, whatever its sign; a negative number
    raises [ValueError]; and a number that is not negative makes the call
    return.  Every raise leaves the store as it was. *)
Theorem change_weight_outcome (w : World) (self : loc) (d : Die) (face : Face)
    (new_weight : weight_arg) :
  dice w !! self = Some d →
  (face ∉ Die.index d →
   ∃ msg, Die.change_weight self face new_weight w = (inl (IndexError msg), w)) ∧
  (face ∈ Die.index d →
   (∀ s, new_weight = WBadString s →
      Die.change_weight self face new_weight w
      = (inl (TypeError "New weight must be numeric or castable to float."), w)) ∧
   (new_weight = WNotNumber →
      ∃ msg, Die.change_weight self face new_weight w = (inl (TypeError msg), w)) ∧
   (new_weight = WTooLarge →
      ∃ msg, Die.change_weight self face new_weight w = (inl (OverflowError msg), w)) ∧
   (∀ x, new_weight = WNumber x → (x < 0)%Q →
      Die.change_weight self face new_weight w
      = (inl (ValueError "Weight must be non-negative."), w)) ∧
   (∀ x, new_weight = WNumber x → (0 <= x)%Q →
      ∃ w', Die.change_weight self face new_weight w = (inr tt, w'))).
Proof.
  intros Hd. unfold Die.change_weight. unfold_M. rewrite Hd. split.
  - intros Hin. rewrite decide_True by exact Hin. eauto.
  - intros Hin. rewrite decide_False by (intros H; by apply H).
    split; [|split; [|split; [|split]]].
    + by intros s ->.
    + intros ->. simpl. eauto.
    + intros ->. simpl. eauto.
    + intros x -> Hx. simpl.
      destruct (Qlt_le_dec x 0) as [|Hle]; [reflexivity|]. exfalso. lra.
    + intros x -> Hx. simpl.
      destruct (Qlt_le_dec x 0) as [Hlt|]; [exfalso; lra|]. eauto.
Qed.

(** The calls that change the dice of a store: a constructor adds a die
    at a new location, a [change_weight] that returns rewrites the
    weights of its die, and no other call does anything to a die. *)
Lemma run_dice (c : call) (w w' : World) (res : option exn) :
  run c w = (res, w') →
  dice w' = dice w ∨
  (∃ faces d, c = DieInit faces ∧ dice w' = <[fresh (dom (dice w)) := d]> (dice w)) ∨
  (∃ self face x d, c = DieChangeWeight self face x ∧ dice w !! self = Some d ∧
     dice w' = <[self := mkDie (set_at face (match x with WNumber q => q | _ => 0%Q end)
                                   (Die__df d))]> (dice w)).
Proof.
  destruct c as [faces|self face x|self n|self|l|self n|self form|ga|self|self|self|self];
    simpl; unfold outcome.
  - unfold Die.init. unfold_M. intros H.
    repeat case_match; simplify_eq; try (by left).
    right. left. eexists _, _. split; reflexivity.
  - unfold Die.change_weight. unfold_M. intros H.
    destruct (dice w !! self) as [d|] eqn:Hd; [|simplify_eq; by left].
    destruct (decide (face ∉ Die.index d)); [simplify_eq; by left|].
    destruct x as [q|s| |]; simpl in H; [|simplify_eq; by left..].
    destruct (Qlt_le_dec q 0); simplify_eq; [by left|].
    right. right. eexists _, _, (WNumber q), d. split; [reflexivity|].
    split; [exact Hd|reflexivity].
  - destruct (Die.roll self n w) as [r w1] eqn:Hr. apply roll_objects in Hr.
    unfold objects in Hr. intros H. left. destruct r; simplify_eq; congruence.
  - unfold Die.show. unfold_M. intros H. repeat case_match; simplify_eq; eauto.
  - unfold Game.init. unfold_M. intros H. repeat case_match; simplify_eq; eauto.
  - destruct (Game.play self n w) as [[e|[]] w1] eqn:Hp; intros H; left.
    + apply play_error in Hp. unfold objects in Hp. simplify_eq. congruence.
    + apply play_success in Hp as (g & cols & st & _ & _ & ->).
      by simplify_eq.
  - unfold Game.show. unfold_M. intros H. repeat case_match; simplify_eq; eauto.
  - unfold Analyzer.init, Game.show. unfold_M. intros H.
    repeat case_match; simplify_eq; eauto.
  - unfold Analyzer.jackpot, Analyzer.get_results. unfold_M. intros H.
    repeat case_match; simplify_eq; eauto.
  - unfold Analyzer.face_counts_per_roll, Analyzer.get_results. unfold_M. intros H.
    repeat case_match; simplify_eq; eauto.
  - unfold Analyzer.combo_count, Analyzer.get_results. unfold_M. intros H.
    repeat case_match; simplify_eq; eauto.
  - unfold Analyzer.permutation_count, Analyzer.get_results. unfold_M. intros H.
    repeat case_match; simplify_eq; eauto.
Qed.

(** X7. The faces of a die are fixed at construction: whatever calls are
    made afterwards, in whatever order and whether they return or raise,
    the die is still in the store with the same faces in the same
    order. *)
Theorem faces_never_change (cs : list call) (w : World) (r : loc) (d : Die) :
  dice w !! r = Some d →
  ∃ d', dice (run_all cs w) !! r = Some d' ∧ Die.index d' = Die.index d.
Proof.
  unfold run_all. revert w d. induction cs as [|c cs IH]; intros w d Hd; simpl; [eauto|].
  destruct (run c w) as [res w'] eqn:Hrun. simpl.
  assert (Hstep : ∃ d', dice w' !! r = Some d' ∧ Die.index d' = Die.index d).
  { apply run_dice in Hrun as [->|[(faces & d0 & _ & ->)|(self & face & x & d0 & _ & Hd0 & ->)]].
    - eauto.
    - rewrite lookup_insert_ne; [eauto|]. intros <-.
      assert (Hin : fresh (dom (dice w)) ∈ dom (dice w)) by (apply elem_of_dom; eauto).
      by apply is_fresh in Hin.
    - destruct (decide (self = r)) as [->|Hne].
      + rewrite lookup_insert_eq. eexists. split; [reflexivity|].
        simplify_eq. unfold Die.index. simpl. apply set_at_index.
      + rewrite lookup_insert_ne by exact Hne. eauto. }
  destruct Hstep as (d' & Hd' & Hidx). destruct (IH w' d' Hd') as (d'' & Hd'' & Hidx').
  exists d''. split; [exact Hd''|congruence].
Qed.

(** X8. The weights of a die change through [change_weight] on that die
    and through nothing else: any other call, whether it returns or
    raises, leaves the die exactly as it was. *)
Theorem weights_change_only_by_change_weight (c : call) (w w' : World)
    (res : option exn) (r : loc) (d : Die) :
  dice w !! r = Some d →
  (∀ face x, c ≠ DieChangeWeight r face x) →
  run c w = (res, w') →
  dice w' !! r = Some d.
Proof.
  intros Hd Hc Hrun.
  apply run_dice in Hrun as [->|[(faces & d0 & _ & ->)|(self & face & x & d0 & -> & Hd0 & ->)]].
  - exact Hd.
  - rewrite lookup_insert_ne; [exact Hd|]. intros <-.
    assert (Hin : fresh (dom (dice w)) ∈ dom (dice w)) by (apply elem_of_dom; eauto).
    by apply is_fresh in Hin.
  - rewrite lookup_insert_ne; [exact Hd|]. intros ->. by apply (Hc face x).
Qed.

(** ** Games *)

(** X9. Constructing a game from what is no list, or from an empty list,
    raises [ValueError] and leaves the store as it was.  From
    a list that is not empty it returns a new game that has no results:
    until it is played, [show] raises [ValueError] for every form, valid
    or not, and so does the construction of an analyzer, and neither
    changes the store. *)
Theorem game_init_outcome (w : World) (l : list loc) :
  Game.init NotList w
  = (inl (ValueError "Must provide a non-empty list of dice."), w) ∧
  (l = [] →
   Game.init (IsList l) w
   = (inl (ValueError "Must provide a non-empty list of dice."), w)) ∧
  (l ≠ [] →
   ∃ g w1, Game.init (IsList l) w = (inr g, w1) ∧
     games w !! g = None ∧ games w1 !! g = Some (mkGame l None) ∧
     (∀ form, Game.show g form w1
              = (inl (ValueError "No game has been played yet."), w1)) ∧
     Analyzer.init (IsGame g) w1
     = (inl (ValueError "No game has been played yet."), w1)).
Proof.
  unfold Game.init. unfold_M. split; [reflexivity|]. split.
  - intros ->. reflexivity.
  - intros Hl. rewrite decide_False by (by destruct l).
    eexists _, _. split; [reflexivity|].
    split; [apply not_elem_of_dom, is_fresh|].
    split; [simpl; apply lookup_insert_eq|].
    split.
    + intros form. unfold Game.show. unfold_M. simpl. by rewrite lookup_insert_eq.
    + unfold Analyzer.init, Game.show. unfold_M. simpl. by rewrite lookup_insert_eq.
Qed.

Lemma rows_of_columns_lookup (cols : list (list Face)) i j row v :
  rows_of_columns cols !! i = Some row → row !! j = Some v →
  ∃ col, cols !! j = Some col ∧ col !! i = Some v.
Proof.
  revert j row. induction cols as [|c cols IH]; intros j row; [done|].
  destruct cols as [|c' cols].
  - simpl. rewrite list_lookup_fmap. destruct (c !! i) as [x|] eqn:Hx; [|done].
    intros [= <-]. destruct j as [|j]; [|done]. intros [= <-]. eauto.
  - change (rows_of_columns (c :: c' :: cols))
      with (zip_with cons c (rows_of_columns (c' :: cols))).
    intros (x & r & -> & Hx & Hr)%lookup_zip_with_Some.
    destruct j as [|j]; simpl.
    + intros [= <-]. eauto.
    + intros Hv. destruct (IH j r Hr Hv) as (col & Hcol & Hcv). eauto.
Qed.

Lemma roll_each_columns ds n w cols w' :
  Game.roll_each ds (IsInt n) w = (inr cols, w') →
  Forall2
    (λ die col, ∃ d, dice w !! die = Some d ∧
       Forall (λ v, ∃ k q, Die__df d !! k = Some (v, q) ∧ ¬ (q == 0)%Q) col)
    ds cols.
Proof.
  revert w cols w'. induction ds as [|die ds IH]; intros w cols w'; simpl.
  - unfold_M. intros H. simplify_eq. constructor.
  - intros (c & w1 & Hroll & (cs & w2 & Heach & Hret)%bind_inv_inr)%bind_inv_inr.
    unfold mret, M_ret in Hret. simplify_eq.
    pose proof (roll_objects _ _ _ _ _ Hroll) as Hobj.
    assert (Hdice : dice w1 = dice w) by (unfold objects in Hobj; congruence).
    apply IH in Heach. rewrite Hdice in Heach.
    constructor; [|exact Heach].
    destruct (dice w !! die) as [d|] eqn:Hd.
    2:{ revert Hroll. unfold Die.roll. unfold_M. rewrite Hd. discriminate. }
    exists d. split; [reflexivity|].
    destruct (roll_success_draws _ _ _ _ _ _ Hd Hroll) as (_ & _ & Ht & Hdraw).
    eapply Forall2_Forall_r; [exact Hdraw|]. apply Forall_true.
    intros u x (k & q & Hk & Hlo & Hhi). exists k, q. split; [exact Hk|].
    intros Hq. rewrite Hq in Hhi.
    assert (Heq : ((Qsum (take k (Die.weight d)) + 0) / py_sum (Die.weight d)
                   == Qsum (take k (Die.weight d)) / py_sum (Die.weight d))%Q)
      by (field; exact Ht).
    rewrite Heq in Hhi. lra.
Qed.

(** X10. After a [play] that returns, the game refers to a new table in
    which every cell of column [j] is a face of the [j]-th die of the
    game, as that die is in the store at the time of the play, and a face
    whose weight is not 0.  The game holds references: a weight changed
    after the game was constructed counts. *)
Theorem play_cells (w w' : World) (self : loc) (g : Game) (n : Z) :
  games w !! self = Some g →
  Game.play self (IsInt n) w = (inr tt, w') →
  ∃ r t,
    games w' !! self = Some (mkGame (Game__dice g) (Some r)) ∧
    frames w !! r = None ∧ frames w' !! r = Some t ∧
    ∀ i j row v, df_values t !! i = Some row → row !! j = Some v →
      ∃ die d k q,
        Game__dice g !! j = Some die ∧ dice w !! die = Some d ∧
        Die__df d !! k = Some (v, q) ∧ ¬ (q == 0)%Q.
Proof.
  intros Hg Hplay.
  apply play_success in Hplay as (g' & cols & st & Hg' & Heach & ->).
  rewrite Hg in Hg'. injection Hg' as <-.
  eexists _, _. split; [apply lookup_insert_eq|].
  split; [apply not_elem_of_dom, is_fresh|].
  split; [apply lookup_insert_eq|].
  cbn [df_values DataFrame_of_dict]. intros i j row v Hrow Hv.
  destruct (rows_of_columns_lookup _ _ _ _ _ Hrow Hv) as (col & Hcol & Hcv).
  apply roll_each_columns in Heach.
  destruct (Forall2_lookup_r _ _ _ _ _ Heach Hcol) as (die & Hdie & d & Hd & Hall).
  rewrite Forall_forall in Hall.
  destruct (Hall v) as (k & q & Hk & Hq); [by eapply list_elem_of_lookup_2|].
  exists die, d, k, q. auto.
Qed.

(** X11. What [play] leaves alone, whether it returns or raises: every
    die, every analyzer, every other game, the list of dice of the game
    itself, and every table that is in the store, the one the game held
    before included. *)
Theorem play_leaves_alone (w w' : World) (self : loc) (n : int_arg) (res : exn + unit) :
  Game.play self n w = (res, w') →
  dice w' = dice w ∧ analyzers w' = analyzers w ∧
  (∀ g', g' ≠ self → games w' !! g' = games w !! g') ∧
  (∀ g, games w !! self = Some g →
        ∃ g1, games w' !! self = Some g1 ∧ Game__dice g1 = Game__dice g) ∧
  (∀ r t, frames w !! r = Some t → frames w' !! r = Some t).
Proof.
  destruct res as [e|[]].
  - intros Hobj%play_error. unfold objects in Hobj. simplify_eq.
    repeat split; try congruence; eauto with congruence.
    intros g Hg. exists g. split; congruence.
  - intros (g & cols & st & Hg & _ & ->)%play_success. simpl.
    split; [reflexivity|]. split; [reflexivity|]. split; [|split].
    + intros g' Hne. by rewrite lookup_insert_ne.
    + intros g0 Hg0. rewrite lookup_insert_eq. eexists. split; [reflexivity|].
      simpl. congruence.
    + intros r t Hr. rewrite lookup_insert_ne; [exact Hr|].
      intros <-. assert (Hin : fresh (dom (frames w)) ∈ dom (frames w))
        by (apply elem_of_dom; eauto).
      by apply is_fresh in Hin.
Qed.

(** The loop of [play] gets through only if the count is a positive
    integer (or there is no die to roll) and every reference is to a die
    that has a face of positive weight. *)
Lemma roll_each_returns ds n w cols w' :
  (∀ die d, dice w !! die = Some d → Die_ok d) →
  Game.roll_each ds n w = (inr cols, w') →
  (ds = [] ∨ ∃ z, n = IsInt z ∧ (0 < z)%Z) ∧
  Forall (λ die, ∃ d, dice w !! die = Some d ∧
                      ∃ f q, (f, q) ∈ Die__df d ∧ (0 < q)%Q) ds.
Proof.
  revert w cols w'. induction ds as [|die ds IH]; intros w cols w' Hok.
  - intros _. split; [by left|constructor].
  - simpl.
    intros (c & w1 & Hroll & (cs & w2 & Heach & Hret)%bind_inv_inr)%bind_inv_inr.
    destruct (dice w !! die) as [d|] eqn:Hd.
    2:{ revert Hroll. unfold Die.roll. unfold_M. rewrite Hd. discriminate. }
    destruct (roll_returns_int _ _ _ _ _ Hroll) as (z & Hn & Hz & _).
    split; [right; exists z; split; [exact Hn|lia]|].
    constructor.
    + exists d. split; [exact Hd|].
      eapply roll_returns_weight; [exact Hd|exact (proj2 (Hok _ _ Hd))|exact Hroll].
    + pose proof (roll_objects _ _ _ _ _ Hroll) as Hobj.
      assert (Hdice : dice w1 = dice w) by (unfold objects in Hobj; congruence).
      apply IH in Heach as [_ Hall]; [|rewrite Hdice; exact Hok].
      by rewrite Hdice in Hall.
Qed.

(** X12. On a store whose dice have distinct faces and no negative
    weight, [play] on a game returns only if the count is a positive
    integer and every entry of the game's list is a die of the store with
    some face of positive weight.  A count that is no int, or is not
    positive ([False] included), raises the [ValueError] of [play] and
    leaves the store as it was. *)
Theorem play_returns_only_if (w : World) (self : loc) (g : Game) (n : int_arg) :
  World_ok w → games w !! self = Some g →
  (n = NotInt ∨ n = IsBool false ∨ (∃ z, n = IsInt z ∧ (z ≤ 0)%Z) →
   Game.play self n w
   = (inl (ValueError "Number of rolls must be a positive integer."), w)) ∧
  (∀ w', Game.play self n w = (inr tt, w') →
     (∃ z, n = IsInt z ∧ (0 < z)%Z) ∧
     Forall (λ die, ∃ d, dice w !! die = Some d ∧
                         ∃ f q, (f, q) ∈ Die__df d ∧ (0 < q)%Q) (Game__dice g)).
Proof.
  intros Hok Hg. split.
  - unfold Game.play. unfold_M. rewrite Hg.
    intros [->|[->|(z & -> & Hz)]]; [reflexivity..|].
    by rewrite decide_True by exact Hz.
  - intros w' (g' & cols & st & Hg' & Heach & _)%play_success.
    rewrite Hg in Hg'. injection Hg' as <-.
    apply roll_each_returns in Heach as [[Hnil|Hn] Hall]; [|by split|apply Hok].
    exfalso. by apply (ok_games w Hok self g).
Qed.

(** ** The statistics against each other *)

Lemma filter_full_length {A} (P : A → Prop) `{!∀ x, Decision (P x)} (l : list A) :
  length (filter P l) = length l → Forall P l.
Proof.
  induction l as [|x l IH]; [constructor|].
  rewrite filter_cons. pose proof (length_filter P l).
  destruct (decide (P x)); simpl; intros Hlen; [|lia].
  constructor; [assumption|]. apply IH. lia.
Qed.

Lemma all_same_iff (row : list Face) :
  all_same row = true ↔ ∃ x, row ≠ [] ∧ Forall (λ y, y = x) row.
Proof.
  destruct row as [|x r]; simpl.
  - split; [discriminate|]. by intros (x & ? & _).
  - rewrite forallb_forall. split.
    + intros Hall. exists x. split; [done|]. constructor; [reflexivity|].
      apply Forall_forall. intros y Hy%list_elem_of_In.
      by apply Hall, bool_decide_eq_true in Hy.
    + intros (x' & _ & Hall) y Hy%list_elem_of_In.
      apply Forall_cons in Hall as [-> Hall]. rewrite Forall_forall in Hall.
      apply bool_decide_eq_true. by apply Hall.
Qed.

Lemma occurrences_all {A} `{EqDecision A} (x : A) (l : list A) :
  Forall (λ y, y = x) l → occurrences x l = length l.
Proof.
  induction 1 as [|y l -> _ IH]; [reflexivity|].
  rewrite occurrences_cons, decide_True by reflexivity. simpl. by rewrite IH.
Qed.

Lemma length_filter_fmap_iff {A B} (P : A → Prop) (Q : B → Prop) (f : A → B)
    `{!∀ x, Decision (P x)} `{!∀ y, Decision (Q y)} (l : list A) :
  Forall (λ x, P x ↔ Q (f x)) l →
  length (filter P l) = length (filter Q (f <$> l)).
Proof.
  induction 1 as [|x l Hx _ IH]; [reflexivity|].
  rewrite fmap_cons, !filter_cons.
  destruct (decide (P x)) as [HP|HP], (decide (Q (f x))) as [HQ|HQ]; simpl;
    try (by rewrite IH); exfalso; tauto.
Qed.

(** X13. The jackpots can be read off the table of face counts: when
    every roll has [d ≥ 1] outcomes, [jackpot] returns the number of rows
    of the table of [face_counts_per_roll] that hold the count [d]. *)
Theorem jackpot_from_face_counts (w : World) (self : loc) (a : Analyzer)
    (t : DataFrame) (d : nat) :
  analyzers w !! self = Some a → frames w !! results a = Some t →
  (0 < d)%nat → Forall (λ row, length row = d) (df_values t) →
  ∃ j fc,
    Analyzer.jackpot self w = (inr j, w) ∧
    Analyzer.face_counts_per_roll self w = (inr fc, w) ∧
    j = length (filter (λ counts, d ∈ counts) (cf_values fc)).
Proof.
  intros Ha Ht Hd Hshape.
  destruct (statistics_of_snapshot _ _ _ _ Ha Ht) as (Hj & Hf & _ & _).
  eexists _, _. split; [exact Hj|]. split; [exact Hf|].
  rewrite face_counts_eq. cbn [cf_values].
  set (U := unique (concat (df_values t))).
  unfold Analyzer.jackpots.
  rewrite (list_filter_iff _ (λ row, all_same row = true))
    by (intros row; apply one_value_all_same).
  apply (length_filter_fmap_iff (λ row, all_same row = true) (λ counts, d ∈ counts)).
  apply Forall_forall. intros row Hrow.
  rewrite Forall_forall in Hshape. specialize (Hshape row Hrow).
  rewrite all_same_iff, list_elem_of_fmap. split.
  - intros (x & Hne & Hall). exists x. split.
    + by rewrite occurrences_all, Hshape.
    + unfold U. rewrite elem_of_unique. apply elem_of_concat. exists row.
      split; [exact Hrow|]. destruct row as [|y row]; [done|].
      apply Forall_cons in Hall as [-> _]. by constructor.
  - intros (x & Hocc & _). exists x. split; [intros ->; simpl in Hshape; lia|].
    apply (filter_full_length (λ y, y = x) row). unfold occurrences in Hocc. congruence.
Qed.

Lemma occurrences_filter {A} `{EqDecision A} (P : A → Prop) `{!∀ x, Decision (P x)}
    (k : A) (l : list A) :
  P k → occurrences k (filter P l) = occurrences k l.
Proof.
  intros HP. induction l as [|x l IH]; [reflexivity|].
  rewrite filter_cons, (occurrences_cons k x l).
  destruct (decide (P x)) as [Hx|Hx].
  - by rewrite occurrences_cons, IH.
  - rewrite IH, decide_False; [reflexivity|]. intros ->. contradiction.
Qed.

(** The counts of the keys that satisfy a condition add up to the number
    of elements that satisfy it. *)
Lemma value_counts_filter_sum {A} `{EqDecision A} (P : A → Prop)
    `{!∀ x, Decision (P x)} (l : list A) :
  sum_list (filter (λ e, P e.1) (value_counts l)).*2 = length (filter P l).
Proof.
  rewrite value_counts_Permutation.
  assert (Hf : filter (λ e : A * nat, P e.1) ((λ k, (k, occurrences k l)) <$> unique l)
               = (λ k, (k, occurrences k l)) <$> filter P (unique l)).
  { induction (unique l) as [|k ks IH]; [reflexivity|].
    rewrite fmap_cons, !filter_cons. simpl.
    destruct (decide (P k)); by rewrite IH. }
  rewrite Hf, <- list_fmap_compose.
  rewrite (list_fmap_ext _ (λ k, occurrences k (filter P l)) (filter P (unique l))).
  - apply sum_occurrences.
    + apply NoDup_filter, NoDup_unique.
    + intros x [HPx Hx]%list_elem_of_filter.
      apply list_elem_of_filter. split; [exact HPx|]. by apply elem_of_unique.
  - intros i k Hk. simpl. symmetry. apply occurrences_filter.
    apply list_elem_of_lookup_2, list_elem_of_filter in Hk. tauto.
Qed.

(** X14. The two tables agree: on a snapshot whose rolls each have
    outcomes of one type, the count of a combination is the sum of the
    counts of the permutations that are rearrangements of it. *)
Theorem combo_count_sums_permutations (w : World) (self : loc) (a : Analyzer)
    (t : DataFrame) :
  analyzers w !! self = Some a → frames w !! results a = Some t →
  Forall one_type (df_values t) →
  ∃ cc pc,
    Analyzer.combo_count self w = (inr cc, w) ∧
    Analyzer.permutation_count self w = (inr pc, w) ∧
    ∀ k c, (k, c) ∈ cc → c = sum_list (filter (λ e, e.1 ≡ₚ k) pc).*2.
Proof.
  intros Ha Ht Hone.
  destruct (statistics_of_snapshot _ _ _ _ Ha Ht) as (_ & _ & Hc & Hp).
  unfold Analyzer.combo_counts in Hc. rewrite apply_rows_sorted in Hc by exact Hone.
  eexists _, _. split; [exact Hc|]. split; [exact Hp|].
  intros k c [(r & -> & Hr)%list_elem_of_fmap ->]%elem_of_value_counts.
  unfold Analyzer.permutation_counts.
  pose proof (value_counts_filter_sum
                (λ r0 : list Face, r0 ≡ₚ merge_sort face_le r) (df_values t)) as Hs.
  symmetry. etrans; [exact Hs|].
  rewrite occurrences_fmap. f_equal. apply list_filter_iff. intros r0.
  symmetry. apply sorted_key_iff, (Sorted_merge_sort _).
Qed.

(** X15. The jackpots can be read off the table of permutations too:
    [jackpot] returns the sum of the counts of the permutations all of
    whose outcomes have one value. *)
Theorem jackpot_from_permutation_count (w : World) (self : loc) (a : Analyzer)
    (t : DataFrame) :
  analyzers w !! self = Some a → frames w !! results a = Some t →
  ∃ j pc,
    Analyzer.jackpot self w = (inr j, w) ∧
    Analyzer.permutation_count self w = (inr pc, w) ∧
    j = sum_list (filter (λ e, all_same e.1 = true) pc).*2.
Proof.
  intros Ha Ht.
  destruct (statistics_of_snapshot _ _ _ _ Ha Ht) as (Hj & _ & _ & Hp).
  eexists _, _. split; [exact Hj|]. split; [exact Hp|].
  unfold Analyzer.permutation_counts, Analyzer.jackpots.
  pose proof (value_counts_filter_sum
                (λ r : list Face, all_same r = true) (df_values t)) as Hs.
  symmetry. etrans; [exact Hs|].
  f_equal. apply list_filter_iff. intros row. symmetry. apply one_value_all_same.
Qed.

Lemma length_value_counts {A} `{EqDecision A} (l : list A) :
  length (value_counts l) = length (unique l).
Proof. by rewrite value_counts_Permutation, length_fmap. Qed.

Lemma length_unique_le {A} `{EqDecision A} (l : list A) :
  (length (unique l) ≤ length l)%nat.
Proof.
  apply submseteq_length, NoDup_submseteq; [apply NoDup_unique|].
  intros x. by rewrite elem_of_unique.
Qed.

Lemma length_unique_fmap_le {A B} `{EqDecision A} `{EqDecision B} (f : A → B)
    (l : list A) :
  (length (unique (f <$> l)) ≤ length (unique l))%nat.
Proof.
  rewrite <- (length_fmap f (unique l)).
  apply submseteq_length, NoDup_submseteq; [apply NoDup_unique|].
  intros y. rewrite elem_of_unique. intros (x & -> & Hx)%list_elem_of_fmap.
  apply list_elem_of_fmap. exists x. by rewrite elem_of_unique.
Qed.

(** X16. The sizes of the tables: on a snapshot whose rolls each have
    outcomes of one type, there are at most as many combinations as
    permutations, at most as many permutations as rolls, and at least one
    combination when there is a roll. *)
Theorem count_table_sizes (w : World) (self : loc) (a : Analyzer) (t : DataFrame) :
  analyzers w !! self = Some a → frames w !! results a = Some t →
  Forall one_type (df_values t) →
  ∃ cc pc,
    Analyzer.combo_count self w = (inr cc, w) ∧
    Analyzer.permutation_count self w = (inr pc, w) ∧
    (length cc ≤ length pc)%nat ∧ (length pc ≤ length (df_values t))%nat ∧
    (df_values t ≠ [] → (1 ≤ length cc)%nat).
Proof.
  intros Ha Ht Hone.
  destruct (statistics_of_snapshot _ _ _ _ Ha Ht) as (_ & _ & Hc & Hp).
  unfold Analyzer.combo_counts in Hc. rewrite apply_rows_sorted in Hc by exact Hone.
  eexists _, _. split; [exact Hc|]. split; [exact Hp|].
  unfold Analyzer.permutation_counts. rewrite !length_value_counts.
  split; [apply length_unique_fmap_le|]. split; [apply length_unique_le|].
  intros Hne. destruct (df_values t) as [|row rows]; [done|].
  assert (Hin : merge_sort face_le row ∈ unique (merge_sort face_le <$> row :: rows)).
  { apply elem_of_unique. rewrite fmap_cons. by constructor. }
  destruct (unique _); [by apply elem_of_nil in Hin|simpl; lia].
Qed.

(** ** The narrow form, cell by cell *)

Lemma lookup_concat_uniform {A} (ls : list (list A)) (d i j : nat) (l : list A) (x : A) :
  Forall (λ l, length l = d) ls → ls !! i = Some l → l !! j = Some x →
  concat ls !! (i * d + j)%nat = Some x.
Proof.
  intros Hall. revert i. induction Hall as [|l0 ls Hl0 _ IH]; intros i; [done|].
  destruct i as [|i]; simpl.
  - intros [= ->] Hx. by rewrite lookup_app_l by (by eapply lookup_lt_Some).
  - intros Hl Hx. rewrite lookup_app_r by lia.
    replace (d + i * d + j - length l0)%nat with (i * d + j)%nat by lia. by apply IH.
Qed.

(** X17. After a [play] that returns, the row of the narrow table for
    roll [i] and die [j] is at position [i * d + j], [d] being the number
    of dice; it is labelled ([i], [j]) and holds the cell of row [i] and
    column [j] of the wide table.  Showing the narrow form leaves the
    game's own table as it is. *)
Theorem narrow_cell (w w' : World) (self : loc) (g : Game) (n : Z) :
  games w !! self = Some g →
  Game.play self (IsInt n) w = (inr tt, w') →
  ∃ (r rn : loc) (wide narrow : DataFrame) (w2 : World),
    games w' !! self = Some (mkGame (Game__dice g) (Some r)) ∧
    frames w' !! r = Some wide ∧
    Game.show self "narrow" w' = (inr rn, w2) ∧
    frames w2 !! rn = Some narrow ∧ frames w2 !! r = Some wide ∧
    ∀ i j row v, df_values wide !! i = Some row → row !! j = Some v →
      df_index narrow !! (i * length (Game__dice g) + j)%nat = Some [LInt i; LInt j] ∧
      df_values narrow !! (i * length (Game__dice g) + j)%nat = Some [v].
Proof.
  intros Hg Hplay.
  apply play_success in Hplay as (g' & cols & st & Hg' & Heach & ->).
  rewrite Hg in Hg'. injection Hg' as <-.
  apply roll_each_shape in Heach as [Hcols Hall].
  set (r := fresh (dom (frames w))).
  set (t := mkDataFrame _ _ _ _).
  set (w' := with_games _ _).
  assert (Hgame : games w' !! self = Some (mkGame (Game__dice g) (Some r)))
    by apply lookup_insert_eq.
  assert (Ht : frames w' !! r = Some t) by apply lookup_insert_eq.
  eexists r, _, t, _, _.
  split; [exact Hgame|]. split; [exact Ht|].
  split; [eapply show_narrow; eauto|]. split; [apply lookup_insert_eq|].
  split.
  { simpl. rewrite lookup_insert_ne; [apply lookup_insert_eq|].
    intros Heq. symmetry in Heq. revert Heq.
    exact (fresh_frame_ne w' r (mk_is_Some _ _ Ht)). }
  cbn [df_index df_values]. intros i j row v Hrow Hv.
  assert (Hne : cols ≠ []).
  { intros ->. subst t. simpl in Hrow. done. }
  destruct (rows_of_columns_shape cols _ Hne Hall) as [Hn Hrows].
  assert (Hix : df_index t = (λ i, [LInt i]) <$> seq 0 (Z.to_nat n)).
  { subst t. simpl. unfold range_labels. rewrite Hn, <- list_fmap_compose. done. }
  assert (Hcl : df_columns t = LInt <$> seq 0 (length (Game__dice g))).
  { subst t. simpl. unfold range_labels. by rewrite Hcols. }
  assert (Hvl : Forall (λ row, length row = length (df_columns t)) (df_values t)).
  { rewrite Hcl, length_fmap, length_seq, <- Hcols. exact Hrows. }
  assert (Hlen : length (df_values t) = Z.to_nat n) by exact Hn.
  assert (Hval : df_values t !! i = Some row) by exact Hrow.
  clearbody t. clear Hrow.
  destruct (stack_wide (df_columns t) (df_index t) (df_values t)) as [Hs1 Hs2];
    [|exact Hvl|].
  { by rewrite Hix, length_fmap, length_seq, Hlen. }
  fold (stack t) in Hs1, Hs2.
  assert (Hd : Forall (λ row, length row = length (Game__dice g)) (df_values t)).
  { by rewrite Hcl, length_fmap, length_seq in Hvl. }
  assert (Hi : (i < Z.to_nat n)%nat) by (rewrite <- Hlen; by eapply lookup_lt_Some).
  assert (Hj : (j < length (Game__dice g))%nat).
  { rewrite Forall_forall in Hd. rewrite <- (Hd row); [by eapply lookup_lt_Some|].
    by eapply list_elem_of_lookup_2. }
  split.
  - rewrite Hs1, Hix, Hcl, flat_map_labels, flat_map_concat_map.
    apply (lookup_concat_uniform _ _ _ _
             ((λ j, [LInt i; LInt j]) <$> seq 0 (length (Game__dice g)))).
    + apply Forall_fmap, Forall_true. intros k. simpl.
      by rewrite length_fmap, length_seq.
    + change (map ?f ?l) with (f <$> l). rewrite list_lookup_fmap.
      by rewrite lookup_seq_lt.
    + rewrite list_lookup_fmap. by rewrite lookup_seq_lt.
  - rewrite list_lookup_fmap.
    replace ((stack t) !! (i * length (Game__dice g) + j)%nat)
      with (Some ((stack t).*1 !!! (i * length (Game__dice g) + j)%nat, v)); [done|].
    assert (Hv2 : (stack t).*2 !! (i * length (Game__dice g) + j)%nat = Some v).
    { rewrite Hs2. by eapply lookup_concat_uniform. }
    rewrite list_lookup_fmap in Hv2.
    destruct (stack t !! (i * length (Game__dice g) + j)%nat) as [[ix v']|] eqn:He;
      simplify_eq/=.
    f_equal. f_equal. apply list_lookup_total_correct.
    by rewrite list_lookup_fmap, He.
Qed.

(** X18. Constructing an analyzer on a store that the library built.
    What is no game raises [ValueError]; so does a game that has not been
    played.  For a played game the construction returns a new analyzer
    whose table equals the table the game holds, and it changes no die
    and no game. *)
Theorem analyzer_init_outcome (w : World) :
  World_ok w →
  Analyzer.init NotGame w = (inl (ValueError "Input must be a Game object."), w) ∧
  (∀ g gm, games w !! g = Some gm →
     (Game__results gm = None →
      Analyzer.init (IsGame g) w
      = (inl (ValueError "No game has been played yet."), w)) ∧
     (∀ r, Game__results gm = Some r →
        ∃ self t w1,
          Analyzer.init (IsGame g) w = (inr self, w1) ∧
          analyzers w !! self = None ∧ frames w !! r = Some t ∧
          Analyzer.get_results self "results" w1 = (inr t, w1) ∧
          dice w1 = dice w ∧ games w1 = games w)).
Proof.
  intros Hok. split; [reflexivity|]. intros g gm Hgm. split.
  - intros Hr. unfold Analyzer.init, Game.show. unfold_M. by rewrite Hgm, Hr.
  - intros r Hr. destruct (ok_results w Hok _ _ _ Hgm Hr) as [t Ht].
    eexists _, t, _. split.
    { unfold Analyzer.init. erewrite bind_inr by (eapply show_wide; eauto).
      reflexivity. }
    split; [apply not_elem_of_dom, is_fresh|]. split; [exact Ht|].
    split; [|done].
    eapply get_results_ok; [apply lookup_insert_eq|]. simpl. apply lookup_insert_eq.
Qed.

(** X20. [show] on a played game of a store that the library built.  The
    wide form returns a copy: a table equal to the game's, at a location
    other than the game's, and the game, its table, the dice and the
    analyzers are as before.  A form that is neither 'wide' nor 'narrow'
    raises [ValueError] and leaves the store as it was. *)
Theorem show_outcome (w : World) (self : loc) (g : Game) (r : loc) :
  World_ok w → games w !! self = Some g → Game__results g = Some r →
  ∃ t, frames w !! r = Some t ∧
    (∃ rw w1, Game.show self "wide" w = (inr rw, w1) ∧
       rw ≠ r ∧ frames w !! rw = None ∧
       frames w1 !! rw = Some t ∧ frames w1 !! r = Some t ∧
       games w1 = games w ∧ dice w1 = dice w ∧ analyzers w1 = analyzers w) ∧
    (∀ form, form ≠ "wide" → form ≠ "narrow" →
       Game.show self form w
       = (inl (ValueError "Invalid form. Use 'wide' or 'narrow'."), w)).
Proof.
  intros Hok Hg Hr. destruct (ok_results w Hok _ _ _ Hg Hr) as [t Ht].
  exists t. split; [exact Ht|]. split.
  - eexists _, _. split; [eapply show_wide; eauto|].
    assert (Hne : r ≠ fresh (dom (frames w))) by (apply fresh_frame_ne; eauto).
    split; [congruence|]. split; [apply not_elem_of_dom, is_fresh|].
    split; [apply lookup_insert_eq|]. split; [|done].
    simpl. rewrite lookup_insert_ne by congruence. exact Ht.
  - intros form Hw Hn. unfold Game.show. unfold_M. rewrite Hg, Hr.
    rewrite decide_False by exact Hw. by rewrite decide_False by exact Hn.
Qed.

(** ** The further properties on the example sessions *)

Lemma setup_world_ok : World_ok setup_world.
Proof.
  replace setup_world with
    (run_all [DieInit (Array (IntArray [1; 2; 3; 4; 5; 6]%Z));
              DieInit (Array (IntArray [1; 2; 3; 4; 5; 6]%Z));
              GameInit (IsList [0%nat; 1%nat])] (empty_world example_random))
    by (vm_compute; reflexivity).
  apply run_all_ok, empty_world_ok.
Qed.

Lemma played_world_ok : World_ok played_world.
Proof.
  replace played_world with (run_all [GamePlay 0%nat (IsInt 5)] setup_world)
    by (vm_compute; reflexivity).
  apply run_all_ok, setup_world_ok.
Qed.

(** A roll that returns, and a roll asked for [True] outcomes. *)
Lemma roll_effect_witness :
  pos (np_random (Die.roll 0%nat (IsInt 100) tails_world).2)
  = (100 + pos (np_random tails_world))%nat ∧
  (Die.roll 0%nat (IsBool true) tails_world).2 = tails_world.
Proof.
  split.
  - destruct (roll_effect tails_world (Die.roll 0%nat (IsInt 100) tails_world).2 0%nat
                (IsInt 100) (inr (replicate 100 (FStr "T"))))
      as (_ & _ & z & [= <-] & _ & _ & Hst).
    + vm_compute; reflexivity.
    + rewrite Hst. reflexivity.
  - destruct (roll_effect tails_world (Die.roll 0%nat (IsBool true) tails_world).2 0%nat
                (IsBool true) (Die.roll 0%nat (IsBool true) tails_world).1)
      as (_ & _ & Hraise).
    + vm_compute; reflexivity.
    + exact Hraise.
Defined.


Lemma change_weight_outcome_witness :
  ∃ msg, Die.change_weight 0%nat (FStr "T") WTooLarge tails_world
         = (inl (OverflowError msg), tails_world).
Proof.
  destruct (change_weight_outcome tails_world 0%nat
              (mkDie [(FStr "H", 0%Q); (FStr "T", 1%Q)]) (FStr "T") WTooLarge)
    as [_ Hface].
  - vm_compute; reflexivity.
  - destruct Hface as (_ & _ & Hlarge & _).
    + apply list_elem_of_In. simpl. auto.
    + apply Hlarge. reflexivity.
Defined.

Lemma faces_never_change_witness :
  ∃ d', dice (run_all [DieChangeWeight 0%nat (FStr "T") (WNumber 5);
                       DieRoll 0%nat (IsInt 2);
                       DieInit (Array (IntArray [1]%Z))] tails_world) !! 0%nat = Some d' ∧
        Die.index d' = [FStr "H"; FStr "T"].
Proof.
  apply (faces_never_change _ tails_world 0%nat (mkDie [(FStr "H", 0%Q); (FStr "T", 1%Q)])).
  vm_compute; reflexivity.
Defined.

Lemma weights_change_only_by_change_weight_witness :
  dice (run (DieRoll 0%nat (IsInt 3)) tails_world).2 !! 0%nat
  = Some (mkDie [(FStr "H", 0%Q); (FStr "T", 1%Q)]).
Proof.
  apply (weights_change_only_by_change_weight (DieRoll 0%nat (IsInt 3)) tails_world _
           (run (DieRoll 0%nat (IsInt 3)) tails_world).1).
  - vm_compute; reflexivity.
  - discriminate.
  - by destruct (run (DieRoll 0%nat (IsInt 3)) tails_world).
Defined.

Lemma play_cells_witness :
  ∃ r t,
    games played_world !! 0%nat = Some (mkGame [0%nat; 1%nat] (Some r)) ∧
    frames played_world !! r = Some t ∧
    ∀ i j row v, df_values t !! i = Some row → row !! j = Some v →
      ∃ die d k q,
        [0%nat; 1%nat] !! j = Some die ∧ dice setup_world !! die = Some d ∧
        Die__df d !! k = Some (v, q) ∧ ¬ (q == 0)%Q.
Proof.
  destruct (play_cells setup_world played_world 0%nat (mkGame [0%nat; 1%nat] None) 5)
    as (r & t & H1 & _ & H2 & H3).
  - vm_compute; reflexivity.
  - vm_compute; reflexivity.
  - exists r, t. split; [exact H1|]. split; [exact H2|exact H3].
Defined.

Lemma play_leaves_alone_witness :
  dice (Game.play 0%nat (IsInt 4) fair_world).2 = dice fair_world ∧
  analyzers (Game.play 0%nat (IsInt 4) fair_world).2 = analyzers fair_world.
Proof.
  destruct (play_leaves_alone fair_world (Game.play 0%nat (IsInt 4) fair_world).2 0%nat
              (IsInt 4) (Game.play 0%nat (IsInt 4) fair_world).1) as (H1 & H2 & _).
  - by destruct (Game.play 0%nat (IsInt 4) fair_world).
  - split; [exact H1|exact H2].
Defined.

Lemma play_returns_only_if_witness :
  Game.play 0%nat (IsBool false) setup_world
  = (inl (ValueError "Number of rolls must be a positive integer."), setup_world) ∧
  Forall (λ die, ∃ d, dice setup_world !! die = Some d ∧
                      ∃ f q, (f, q) ∈ Die__df d ∧ (0 < q)%Q) [0%nat; 1%nat].
Proof.
  split.
  - destruct (play_returns_only_if setup_world 0%nat (mkGame [0%nat; 1%nat] None)
                (IsBool false)) as [Hbad _].
    + exact setup_world_ok.
    + vm_compute; reflexivity.
    + apply Hbad. right. left. reflexivity.
  - destruct (play_returns_only_if setup_world 0%nat (mkGame [0%nat; 1%nat] None)
                (IsInt 5)) as [_ Hret].
    + exact setup_world_ok.
    + vm_compute; reflexivity.
    + destruct (Hret played_world) as [_ Hall]; [vm_compute; reflexivity|exact Hall].
Defined.

Lemma jackpot_from_face_counts_witness :
  ∃ j fc,
    Analyzer.jackpot 0%nat fair_world = (inr j, fair_world) ∧
    Analyzer.face_counts_per_roll 0%nat fair_world = (inr fc, fair_world) ∧
    j = length (filter (λ counts, 2%nat ∈ counts) (cf_values fc)).
Proof.
  apply (jackpot_from_face_counts fair_world 0%nat (mkAnalyzer 0 1) fair_snapshot 2).
  - vm_compute; reflexivity.
  - vm_compute; reflexivity.
  - lia.
  - repeat constructor.
Defined.

Lemma combo_count_sums_permutations_witness :
  ∃ cc pc,
    Analyzer.combo_count 0%nat fair_world = (inr cc, fair_world) ∧
    Analyzer.permutation_count 0%nat fair_world = (inr pc, fair_world) ∧
    ∀ k c, (k, c) ∈ cc → c = sum_list (filter (λ e, e.1 ≡ₚ k) pc).*2.
Proof.
  apply (combo_count_sums_permutations fair_world 0%nat (mkAnalyzer 0 1) fair_snapshot).
  - vm_compute; reflexivity.
  - vm_compute; reflexivity.
  - exact fair_snapshot_one_type.
Defined.

Lemma jackpot_from_permutation_count_witness :
  ∃ j pc,
    Analyzer.jackpot 0%nat fair_world = (inr j, fair_world) ∧
    Analyzer.permutation_count 0%nat fair_world = (inr pc, fair_world) ∧
    j = sum_list (filter (λ e, all_same e.1 = true) pc).*2.
Proof.
  apply (jackpot_from_permutation_count fair_world 0%nat (mkAnalyzer 0 1) fair_snapshot).
  - vm_compute; reflexivity.
  - vm_compute; reflexivity.
Defined.

Lemma count_table_sizes_witness :
  ∃ cc pc,
    Analyzer.combo_count 0%nat fair_world = (inr cc, fair_world) ∧
    Analyzer.permutation_count 0%nat fair_world = (inr pc, fair_world) ∧
    (length cc ≤ length pc)%nat ∧ (length pc ≤ 5)%nat.
Proof.
  destruct (count_table_sizes fair_world 0%nat (mkAnalyzer 0 1) fair_snapshot)
    as (cc & pc & H1 & H2 & H3 & H4 & _).
  - vm_compute; reflexivity.
  - vm_compute; reflexivity.
  - exact fair_snapshot_one_type.
  - exists cc, pc. repeat split; assumption.
Defined.

Lemma narrow_cell_witness :
  ∃ (r rn : loc) (wide narrow : DataFrame) (w2 : World),
    frames played_world !! r = Some wide ∧
    Game.show 0%nat "narrow" played_world = (inr rn, w2) ∧
    frames w2 !! rn = Some narrow ∧
    ∀ i j row v, df_values wide !! i = Some row → row !! j = Some v →
      df_index narrow !! (i * 2 + j)%nat = Some [LInt i; LInt j] ∧
      df_values narrow !! (i * 2 + j)%nat = Some [v].
Proof.
  destruct (narrow_cell setup_world played_world 0%nat (mkGame [0%nat; 1%nat] None) 5)
    as (r & rn & wide & narrow & w2 & _ & H1 & H2 & H3 & _ & H4).
  - vm_compute; reflexivity.
  - vm_compute; reflexivity.
  - exists r, rn, wide, narrow, w2. split; [exact H1|]. split; [exact H2|].
    split; [exact H3|]. intros i j row v Hrow Hv. exact (H4 i j row v Hrow Hv).
Defined.

Lemma analyzer_init_outcome_witness :
  Analyzer.init NotGame played_world
  = (inl (ValueError "Input must be a Game object."), played_world) ∧
  ∃ self t w1,
    Analyzer.init (IsGame 0%nat) played_world = (inr self, w1) ∧
    Analyzer.get_results self "results" w1 = (inr t, w1).
Proof.
  destruct (analyzer_init_outcome played_world played_world_ok) as [H1 H2].
  split; [exact H1|].
  destruct (H2 0%nat (mkGame [0%nat; 1%nat] (Some 0%nat))) as [_ H3].
  - vm_compute; reflexivity.
  - destruct (H3 0%nat eq_refl) as (self & t & w1 & Hi & _ & _ & Hg & _).
    exists self, t, w1. split; assumption.
Defined.

Lemma show_outcome_witness :
  ∃ t, frames played_world !! 0%nat = Some t ∧
    (∃ rw w1, Game.show 0%nat "wide" played_world = (inr rw, w1) ∧
       rw ≠ 0%nat ∧ frames w1 !! rw = Some t ∧ frames w1 !! 0%nat = Some t) ∧
    Game.show 0%nat "long" played_world
    = (inl (ValueError "Invalid form. Use 'wide' or 'narrow'."), played_world).
Proof.
  destruct (show_outcome played_world 0%nat (mkGame [0%nat; 1%nat] (Some 0%nat)) 0%nat)
    as (t & Ht & (rw & w1 & H1 & H2 & _ & H3 & H4 & _) & Hbad).
  - exact played_world_ok.
  - vm_compute; reflexivity.
  - reflexivity.
  - exists t. split; [exact Ht|]. split.
    + exists rw, w1. repeat split; assumption.
    + apply Hbad; discriminate.
Defined.
